(** * rx-player demo: text/binary codec helpers ([demo/full/scripts/lib/bytes.ts])

    A shallow embedding of the six functions of [bytes.ts]
    ([strToLeUtf16], [leUtf16ToStr], [strToUtf8], [stringFromCharCodes],
    [intToHex], [utf8ToStr]) together with the ECMAScript primitives they
    call, and the properties of the specification checked against them.

    Conventions.
    - A JavaScript string is the list of its UTF-16 code units ([list Z],
      each in [0, 65535]); a [Uint8Array] is the list of its elements
      ([list Z], each in [0, 255]).
    - Loop counters and lengths are [nat]; arithmetic that JavaScript performs
      on signed numbers ([pcStrLen - 6]) is done in [Z].
    - A JavaScript number that may be [NaN] (an out-of-range [charCodeAt], the
      numeric value of [undefined], a failed [parseInt]) is an [option Z]
      with [None] for [NaN]; reading an element or a character past the end
      yields [None] for [undefined].
    - A call that may throw returns a [result].
    - Strings and arrays are lists of any length. The limit that a host puts
      on the length of a string is modelled where a function is given the
      length of the string to build, in [intToHex]; the other functions
      build strings in proportion to their input, which the host holds. *)

From Stdlib Require Import ZArith Lia.
From stdpp Require Import base list strings.
From Equations Require Import Equations.

(** ** Values and exceptions *)

Abbreviation jsstring := (list Z) (only parsing).
Abbreviation uint8array := (list Z) (only parsing).

Definition is_code_unit (c : Z) : Prop := (0 <= c < 65536)%Z.
Definition is_byte (b : Z) : Prop := (0 <= b < 256)%Z.
Definition is_string (s : jsstring) : Prop := Forall is_code_unit s.
Definition is_bytes (a : uint8array) : Prop := Forall is_byte a.

Inductive exn := URIError | ReferenceError | TypeError | RangeError.

Inductive result (A : Type) :=
| Ok (a : A)
| Throw (e : exn).
Arguments Ok {A} a.
Arguments Throw {A} e.

#[global] Instance result_ret : MRet result := fun _ a => Ok a.
#[global] Instance result_bind : MBind result := fun _ _ f r =>
  match r with
  | Ok a => f a
  | Throw e => Throw e
  end.
#[global] Instance result_fmap : FMap result := fun _ _ f r =>
  match r with
  | Ok a => Ok (f a)
  | Throw e => Throw e
  end.

(** ** ECMAScript primitives used by [bytes.ts] *)

Module Host.

(** [ToInt32]: the operand conversion of the bitwise operators; [NaN]
    (and so [undefined]) converts to [0]. *)
Definition wrap32 (z : Z) : Z := ((z + 2 ^ 31) mod 2 ^ 32 - 2 ^ 31)%Z.

Definition ToInt32 (v : option Z) : Z :=
  match v with
  | Some z => wrap32 z
  | None => 0%Z
  end.

(** [a & b], [a >> k] and [a << k]. *)
Definition bit_and (a : option Z) (b : Z) : Z := Z.land (ToInt32 a) (wrap32 b).
Definition shift_right (a : option Z) (k : Z) : Z := Z.shiftr (ToInt32 a) k.
Definition shift_left (a : option Z) (k : Z) : Z := wrap32 (Z.shiftl (ToInt32 a) k).

(** [a + b] on numbers: [NaN] is absorbing. *)
Definition add (a b : option Z) : option Z :=
  match a, b with
  | Some x, Some y => Some (x + y)%Z
  | _, _ => None
  end.

(** [String.fromCharCode(v)]: [ToUint16] of the argument, [NaN] giving [0]. *)
Definition fromCharCode (v : option Z) : Z :=
  match v with
  | Some z => (z mod 65536)%Z
  | None => 0%Z
  end.

(** [str.charCodeAt(pos)]: [NaN] when [pos] is out of range. *)
Definition charCodeAt (str : jsstring) (pos : nat) : option Z := str !! pos.

(** [new Uint8Array(n)]: [n] zero bytes. *)
Definition new_Uint8Array (n : nat) : uint8array := replicate n 0%Z.

(** [res[i] = v] on a [Uint8Array]: the value is stored modulo 256, and a
    store past the end is ignored. *)
Definition store (res : uint8array) (i : nat) (v : Z) : uint8array :=
  <[i := (v mod 256)%Z]> res.

(** [args.subarray(b, e)] *)
Definition subarray (args : uint8array) (b e : nat) : uint8array :=
  take (e - b) (drop b args).

(** [s.substring(b, e)]: the arguments are clamped to the length and
    swapped when [b > e]. *)
Definition substring (s : jsstring) (b e : nat) : jsstring :=
  take (Nat.max b e - Nat.min b e) (drop (Nat.min b e) s).

(** [String.fromCharCode.apply(null, codes)]: one code unit per element.
    (The limit that a host puts on the number of arguments of one call is
    not modelled; the callers pass at most 16000 of them.) *)
Definition fromCharCode_apply (codes : list Z) : jsstring :=
  map (fun v => fromCharCode (Some v)) codes.

(** The names of [undefined] and of [NaN], as string conversion gives
    them. *)
Definition str_undefined : jsstring :=
  [117; 110; 100; 101; 102; 105; 110; 101; 100]%Z.

Definition str_NaN : jsstring := [78; 97; 78]%Z.

(** [str += x] where [x] is the result of [s[i]]: a one-character string,
    or [undefined], which is appended as its name. *)
Definition append_index (str : jsstring) (x : option Z) : jsstring :=
  match x with
  | Some c => str ++ [c]
  | None => str ++ str_undefined
  end.

(** *** Characters and hexadecimal digits *)

Definition char_percent : Z := 37.
Definition char_u : Z := 117.
Definition char_0 : Z := 48.

Definition in_range (lo hi c : Z) : bool := ((lo <=? c) && (c <=? hi))%Z.

Definition is_hex_digit (c : Z) : bool :=
  in_range 48 57 c || in_range 65 70 c || in_range 97 102 c.

Definition hex_digit_value (c : Z) : Z :=
  if in_range 48 57 c then (c - 48)%Z
  else if in_range 65 70 c then (c - 55)%Z
  else (c - 87)%Z.

Definition hex_upper (d : Z) : Z := if (d <? 10)%Z then (48 + d)%Z else (55 + d)%Z.
Definition hex_lower (d : Z) : Z := if (d <? 10)%Z then (48 + d)%Z else (87 + d)%Z.

Definition is_alnum (c : Z) : bool :=
  in_range 65 90 c || in_range 97 122 c || in_range 48 57 c.

(** [/[0-9a-fA-F]/.test(x)] where [x] is the result of [s[i]]: the argument
    is converted to a string first, and the name of [undefined] contains
    the hexadecimal digits [d], [e] and [f]. *)
Definition isHexChar_test (x : option Z) : bool :=
  match x with
  | Some c => is_hex_digit c
  | None => true
  end.

(** [/[A-Za-z0-9*_+-./]/.test(x)] where [x] is the result of [s[i]]: inside
    the class, [+-.] is the range from [+] (43) to [.] (46), which holds [,]
    (44) and [-] (45) too; the name of [undefined] is made of letters. *)
Definition nonEscapedChar_class (c : Z) : bool :=
  is_alnum c || (c =? 42)%Z || (c =? 95)%Z || in_range 43 46 c || (c =? 47)%Z.

Definition nonEscapedChar_test (x : option Z) : bool :=
  match x with
  | Some c => nonEscapedChar_class c
  | None => true
  end.

(** [parseInt(s, 16)] for a string [s] that starts with neither white space,
    a sign nor [0x] (every string that [bytes.ts] passes starts with [u] or
    with a hexadecimal digit): the value of the longest prefix of
    hexadecimal digits, [NaN] when that prefix is empty. *)
Fixpoint parseInt16_from (s : jsstring) (acc : option Z) : option Z :=
  match s with
  | c :: rest =>
      if is_hex_digit c
      then parseInt16_from rest (Some (16 * default 0 acc + hex_digit_value c)%Z)
      else acc
  | [] => acc
  end.

Definition parseInt16 (s : jsstring) : option Z := parseInt16_from s None.

(** [num.toString(16)] for an integer [num]: lowercase digits, most
    significant first, no leading zero, a minus sign for a negative number. *)
Equations? hex_digits (n : Z) : jsstring by wf (Z.to_nat n) lt :=
hex_digits n with decide (n < 16)%Z := {
  | left _ => [hex_lower n]
  | right _ => hex_digits (n / 16) ++ [hex_lower (n mod 16)] }.
Proof.
  apply Z2Nat.inj_lt; [apply Z.div_pos; lia | lia | apply Z.div_lt; lia].
Qed.

Definition toString16 (num : Z) : jsstring :=
  if (num <? 0)%Z then 45%Z :: hex_digits (- num) else hex_digits num.

(** [new Array(len)]: an array of [len] holes, a [RangeError] unless [len]
    is an integer in [0, 2^32 - 1]. *)
Definition new_Array (len : Z) : result nat :=
  if decide (0 <= len < 2 ^ 32)%Z then Ok (Z.to_nat len) else Throw RangeError.

(** [holes.join(sep)] for an array of [n] holes: every hole joins as the
    empty string, so the separator comes [n - 1] times. *)
Definition join_holes (n : nat) (sep : jsstring) : jsstring :=
  concat (replicate (n - 1) sep).

(** The longest string that the host builds. The limit depends on the
    engine: it is [2^29 - 24] code units in V8, the engine of Chrome, which
    the configuration of the integration tests launches. *)
Definition max_string_length : Z := (2 ^ 29 - 24)%Z.

(** [holes.join(sep)] and [a + b] on a host whose strings have at most
    [limit] code units: a [RangeError] (invalid string length) when the
    string to build is longer. *)
Definition join_holes_within (limit : Z) (n : nat) (sep : jsstring) : result jsstring :=
  if ((Z.of_nat n - 1) * Z.of_nat (length sep) <=? limit)%Z
  then Ok (join_holes n sep)
  else Throw RangeError.

Definition concat_within (limit : Z) (a b : jsstring) : result jsstring :=
  if (Z.of_nat (length a) + Z.of_nat (length b) <=? limit)%Z
  then Ok (a ++ b)
  else Throw RangeError.

(** *** UTF-16 and UTF-8 *)

Definition is_lead_surrogate (c : Z) : bool := in_range 0xD800 0xDBFF c.
Definition is_trail_surrogate (c : Z) : bool := in_range 0xDC00 0xDFFF c.

(** [UTF16SurrogatePairToCodePoint] and [UTF16EncodeCodePoint]. *)
Definition surrogate_pair_to_code_point (lead trail : Z) : Z :=
  ((lead - 0xD800) * 0x400 + (trail - 0xDC00) + 0x10000)%Z.

Definition utf16_encode (cp : Z) : jsstring :=
  if (cp <? 0x10000)%Z then [cp]
  else [(0xD800 + (cp - 0x10000) / 0x400)%Z; (0xDC00 + (cp - 0x10000) mod 0x400)%Z].

(** The UTF-8 transformation of a code point into one to four octets. *)
Definition utf8_encode (cp : Z) : list Z :=
  if (cp <? 0x80)%Z then [cp]
  else if (cp <? 0x800)%Z then
    [(0xC0 + cp / 64)%Z; (0x80 + cp mod 64)%Z]
  else if (cp <? 0x10000)%Z then
    [(0xE0 + cp / 4096)%Z; (0x80 + cp / 64 mod 64)%Z; (0x80 + cp mod 64)%Z]
  else
    [(0xF0 + cp / 262144)%Z; (0x80 + cp / 4096 mod 64)%Z;
     (0x80 + cp / 64 mod 64)%Z; (0x80 + cp mod 64)%Z].

(** *** [encodeURIComponent] *)

(** The characters that [encodeURIComponent] leaves as they are: letters,
    digits and [- _ . ! ~ * ' ( )]. *)
Definition uriUnreserved (c : Z) : bool :=
  is_alnum c ||
  bool_decide (c ∈ [45; 95; 46; 33; 126; 42; 39; 40; 41]%Z).

Definition percent_upper (octet : Z) : jsstring :=
  [char_percent; hex_upper (octet / 16); hex_upper (octet mod 16)].

(** Modelled from the spec: [encodeURIComponent] is a primitive of the host
    (the abstract operation [Encode] of ECMA-262 with the set
    [uriUnreserved]), absent from the repository. An unreserved code unit
    is copied; any other code point is replaced by the percent escapes of
    its UTF-8 octets; a surrogate that is not part of a pair throws a
    [URIError]. *)
Fixpoint encodeURIComponent (str : jsstring) : result jsstring :=
  match str with
  | [] => Ok []
  | c :: rest =>
      if uriUnreserved c then (fun r => c :: r) <$> encodeURIComponent rest
      else if is_trail_surrogate c then Throw URIError
      else if is_lead_surrogate c then
        match rest with
        | d :: rest' =>
            if is_trail_surrogate d then
              (fun r => flat_map percent_upper
                          (utf8_encode (surrogate_pair_to_code_point c d)) ++ r)
                <$> encodeURIComponent rest'
            else Throw URIError
        | [] => Throw URIError
        end
      else
        (fun r => flat_map percent_upper (utf8_encode c) ++ r)
          <$> encodeURIComponent rest
  end.

(** *** [unescape] and [escape] *)

(** Modelled from the spec: [unescape] is a primitive of the host (ECMA-262,
    B.2.1.2), absent from the repository. [%uXXXX] with four hexadecimal
    digits gives the code unit of that value, else [%XX] with two gives the
    code unit of that value, and any other code unit is copied. *)
Fixpoint unescape (s : jsstring) : jsstring :=
  match s with
  | [] => []
  | c :: rest =>
      let two_digits :=
        match rest with
        | h1 :: h2 :: rest2 =>
            if is_hex_digit h1 && is_hex_digit h2
            then (16 * hex_digit_value h1 + hex_digit_value h2)%Z :: unescape rest2
            else c :: unescape rest
        | _ => c :: unescape rest
        end in
      if (c =? char_percent)%Z then
        match rest with
        | u :: h1 :: h2 :: h3 :: h4 :: rest5 =>
            if (u =? char_u)%Z && is_hex_digit h1 && is_hex_digit h2
               && is_hex_digit h3 && is_hex_digit h4
            then (4096 * hex_digit_value h1 + 256 * hex_digit_value h2
                  + 16 * hex_digit_value h3 + hex_digit_value h4)%Z :: unescape rest5
            else two_digits
        | _ => two_digits
        end
      else c :: unescape rest
  end.

(** Modelled from the spec: [escape] is a primitive of the host (ECMA-262,
    B.2.1.1), absent from the repository. Letters, digits and [@ * _ + - . /]
    are copied; any other code unit becomes [%XX] below 256 and [%uXXXX]
    from 256 on, with uppercase digits. *)
Definition escape_char (c : Z) : jsstring :=
  if is_alnum c || bool_decide (c ∈ [64; 42; 95; 43; 45; 46; 47]%Z) then [c]
  else if (c <? 256)%Z then percent_upper c
  else [char_percent; char_u; hex_upper (c / 4096); hex_upper (c / 256 mod 16);
        hex_upper (c / 16 mod 16); hex_upper (c mod 16)].

Definition escape (s : jsstring) : jsstring := flat_map escape_char s.

(** *** [decodeURIComponent] *)

(** The number of leading one bits of an octet. *)
Definition leading_ones (B : Z) : nat :=
  if (B <? 0x80)%Z then 0
  else if (B <? 0xC0)%Z then 1
  else if (B <? 0xE0)%Z then 2
  else if (B <? 0xF0)%Z then 3
  else if (B <? 0xF8)%Z then 4
  else 5.

(** The octet written as [%XX] at the head of [s], if there is one. *)
Definition percent_octet (s : jsstring) : option Z :=
  match s with
  | p :: h1 :: h2 :: _ =>
      if (p =? char_percent)%Z && is_hex_digit h1 && is_hex_digit h2
      then Some (16 * hex_digit_value h1 + hex_digit_value h2)%Z
      else None
  | _ => None
  end.

(** The [j] continuation octets written as [%XX] escapes at the head of
    [s], each of the form [10xxxxxx]. *)
Fixpoint continuation_octets (j : nat) (s : jsstring) : option (list Z) :=
  match j with
  | O => Some []
  | S j' =>
      match percent_octet s with
      | Some B =>
          if in_range 0x80 0xBF B
          then (fun l => B :: l) <$> continuation_octets j' (drop 3 s)
          else None
      | None => None
      end
  end.

(** The 21-bit value of a sequence of [n] octets whose continuation octets
    have the form [10xxxxxx], and whether the sequence is the UTF-8 encoding
    of a code point: not an overlong form, not a surrogate, at most
    [0x10FFFF]. *)
Definition utf8_value (B : Z) (conts : list Z) : Z :=
  fold_left (fun v b => (v * 64 + (b - 0x80))%Z) conts
    match length conts with
    | 1 => (B - 0xC0)%Z
    | 2 => (B - 0xE0)%Z
    | _ => (B - 0xF0)%Z
    end.

Definition utf8_valid (n : nat) (V : Z) : bool :=
  match n with
  | 2 => (0x80 <=? V)%Z
  | 3 => (0x800 <=? V)%Z && negb (in_range 0xD800 0xDFFF V)
  | _ => in_range 0x10000 0x10FFFF V
  end.

(** One turn of the loop of [Decode] on the rest [s] of the string, from
    index [k] on: the code units that it appends and the number of code units
    that it consumes, or a [URIError]. *)
Definition decode_step (s : jsstring) : result (jsstring * nat) :=
  match s with
  | [] => Ok ([], 0)
  | C :: _ =>
      if negb (C =? char_percent)%Z then Ok ([C], 1)
      else
        match percent_octet s with
        | None => Throw URIError
        | Some B =>
            let n := leading_ones B in
            if decide (n = 0) then Ok ([B], 3)
            else if decide (n = 1 ∨ 4 < n) then Throw URIError
            else
              match continuation_octets (n - 1) (drop 3 s) with
              | None => Throw URIError
              | Some conts =>
                  let V := utf8_value B conts in
                  if utf8_valid n V then Ok (utf16_encode V, 3 * n)
                  else Throw URIError
              end
        end
  end.

(** Modelled from the spec: [decodeURIComponent] is a primitive of the host
    (the abstract operation [Decode] of ECMA-262 with an empty reserved
    set), absent from the repository. A code unit other than [%] is copied;
    [%XX] below [0x80] gives that code unit; [%XX] from [0xC2] on starts a
    sequence of two to four escaped octets that must be the UTF-8 encoding
    of a code point, which is appended in UTF-16; anything else throws a
    [URIError]. *)
Equations? decodeURIComponent (s : jsstring) : result jsstring by wf (length s) lt :=
decodeURIComponent [] := Ok [];
decodeURIComponent (C :: rest) with decode_step (C :: rest) := {
  | Throw e => Throw e
  | Ok (units, consumed) =>
      (fun R => units ++ R) <$> decodeURIComponent (drop (consumed - 1) rest) }.
Proof. rewrite length_drop. simpl. lia. Qed.

(** *** The global object *)

(** What [window.f] holds for a primitive [f] that the host may lack. The
    global object [window] itself is there: the code runs in a browser. *)
Inductive global_property := Undeclared | NotCallable | Builtin.

Record window := {
  window_unescape : global_property;
  window_escape : global_property
}.

(** [typeof window.f === "function"] *)
Definition typeof_function (p : global_property) : bool :=
  match p with
  | Builtin => true
  | _ => false
  end.

(** The call [f(x)] of the global [f], where [native] is what the primitive
    returns: a [ReferenceError] when [f] is not declared, a [TypeError] when
    it is not callable. *)
Definition call_global {A} (p : global_property) (native : A) : result A :=
  match p with
  | Builtin => Ok native
  | Undeclared => Throw ReferenceError
  | NotCallable => Throw TypeError
  end.

End Host.


(** ** UTF-16 little-endian *)

(** [strToLeUtf16]: the [for (let i = 0; i < res.length; i += 2)] loop. *)
Equations? strToLeUtf16_loop (str : jsstring) (i : nat) (res : uint8array) : uint8array
  by wf (length res - i) lt :=
strToLeUtf16_loop str i res with decide (i < length res) := {
  | left _ =>
      let value := Host.charCodeAt str (i / 2) in
      let res1 := Host.store res i (Host.bit_and value 0xFF) in
      let res2 :=
        Host.store res1 (i + 1) (Host.bit_and (Some (Host.shift_right value 8)) 0xFF) in
      strToLeUtf16_loop str (i + 2) res2
  | right _ => res }.
Proof. subst res1 res2. unfold Host.store. rewrite !length_insert. lia. Qed.

Definition strToLeUtf16 (str : jsstring) : uint8array :=
  strToLeUtf16_loop str 0 (Host.new_Uint8Array (length str * 2)).

(** [leUtf16ToStr]: the [for (let i = 0; i < bytes.length; i += 2)] loop. *)
Equations? leUtf16ToStr_loop (bytes : uint8array) (i : nat) (str : jsstring) : jsstring
  by wf (length bytes - i) lt :=
leUtf16ToStr_loop bytes i str with decide (i < length bytes) := {
  | left _ =>
      let unit :=
        Host.fromCharCode
          (Host.add (Some (Host.shift_left (bytes !! (i + 1)) 8)) (bytes !! i)) in
      leUtf16ToStr_loop bytes (i + 2) (str ++ [unit])
  | right _ => str }.
Proof. lia. Qed.

Definition leUtf16ToStr (bytes : uint8array) : jsstring :=
  leUtf16ToStr_loop bytes 0 [].

(** ** UTF-8 encoding: [strToUtf8] *)

(** The body of the loop of the fallback for [unescape]: from the index [i]
    and the string [utf8Str] built so far, the index and the string at the
    end of the turn (before [i++]). *)
Definition strToUtf8_unescape_body (pcStr : jsstring) (i : nat) (utf8Str : jsstring)
  : nat * jsstring :=
  let pcStrLen := length pcStr in
  let '(wasPercentEncoded, i, utf8Str) :=
    if bool_decide (pcStr !! i = Some Host.char_percent) then
      if (Z.of_nat i <=? Z.of_nat pcStrLen - 6)%Z &&
         bool_decide (pcStr !! (i + 1) = Some Host.char_u) &&
         Host.isHexChar_test (pcStr !! (i + 2)) &&
         Host.isHexChar_test (pcStr !! (i + 3)) &&
         Host.isHexChar_test (pcStr !! (i + 4)) &&
         Host.isHexChar_test (pcStr !! (i + 5))
      then
        let charCode := Host.parseInt16 (Host.substring pcStr (i + 1) (i + 6)) in
        (true, i + 5, utf8Str ++ [Host.fromCharCode charCode])
      else if (Z.of_nat i <=? Z.of_nat pcStrLen - 3)%Z &&
              Host.isHexChar_test (pcStr !! (i + 1)) &&
              Host.isHexChar_test (pcStr !! (i + 2))
      then
        let charCode := Host.parseInt16 (Host.substring pcStr (i + 1) (i + 3)) in
        (true, i + 2, utf8Str ++ [Host.fromCharCode charCode])
      else (false, i, utf8Str)
    else (false, i, utf8Str) in
  if negb wasPercentEncoded
  then (i, Host.append_index utf8Str (pcStr !! i))
  else (i, utf8Str).

(** The fallback loop [for (let i = 0; i < pcStr.length; i++)]. *)
Equations? strToUtf8_unescape_loop (pcStr : jsstring) (i : nat) (utf8Str : jsstring)
  : jsstring by wf (length pcStr - i) lt :=
strToUtf8_unescape_loop pcStr i utf8Str with decide (i < length pcStr) := {
  | left _ =>
      strToUtf8_unescape_loop pcStr
        ((strToUtf8_unescape_body pcStr i utf8Str).1 + 1)
        (strToUtf8_unescape_body pcStr i utf8Str).2
  | right _ => utf8Str }.
Proof.
  assert (i <= (strToUtf8_unescape_body pcStr i utf8Str).1); [|lia].
  unfold strToUtf8_unescape_body. repeat case_match; simplify_eq/=; lia.
Qed.

(** The loop that builds the array: [res[i] = utf8Str.charCodeAt(i) & 0xFF]. *)
Equations? strToUtf8_bytes_loop (utf8Str : jsstring) (i : nat) (res : uint8array)
  : uint8array by wf (length utf8Str - i) lt :=
strToUtf8_bytes_loop utf8Str i res with decide (i < length utf8Str) := {
  | left _ =>
      strToUtf8_bytes_loop utf8Str (i + 1)
        (Host.store res i (Host.bit_and (Host.charCodeAt utf8Str i) 0xFF))
  | right _ => res }.
Proof. lia. Qed.

Definition strToUtf8 (w : Host.window) (str : jsstring) : result uint8array :=
  pcStr ← Host.encodeURIComponent str;
  utf8Str ←
    (if Host.typeof_function (Host.window_unescape w)
     then Host.call_global (Host.window_unescape w) (Host.unescape pcStr)
     else Ok (strToUtf8_unescape_loop pcStr 0 []));
  Ok (strToUtf8_bytes_loop utf8Str 0 (Host.new_Uint8Array (length utf8Str))).

(** ** [stringFromCharCodes] *)

Definition stringFromCharCodes_max : nat := Z.to_nat 16000.

Equations? stringFromCharCodes_loop (args : uint8array) (i : nat) (ret : jsstring)
  : jsstring by wf (length args - i) lt :=
stringFromCharCodes_loop args i ret with decide (i < length args) := {
  | left _ =>
      let subArray := Host.subarray args i (i + stringFromCharCodes_max) in
      stringFromCharCodes_loop args (i + stringFromCharCodes_max)
        (ret ++ Host.fromCharCode_apply subArray)
  | right _ => ret }.
Proof. unfold stringFromCharCodes_max. lia. Qed.

Definition stringFromCharCodes (args : uint8array) : jsstring :=
  stringFromCharCodes_loop args 0 [].

(** ** [intToHex] *)

(** [intToHex] on a host whose strings have at most [limit] code units: the
    function is given the length of the string to build, which the host may
    refuse. *)
Definition intToHex_within (limit : Z) (num size : Z) : result jsstring :=
  let toStr := Host.toString16 num in
  if (size <=? Z.of_nat (length toStr))%Z then Ok toStr
  else
    holes ← Host.new_Array (size - Z.of_nat (length toStr) + 1);
    zeros ← Host.join_holes_within limit holes [Host.char_0];
    Host.concat_within limit zeros toStr.

Definition intToHex (num size : Z) : result jsstring :=
  intToHex_within Host.max_string_length num size.

(** ** UTF-8 decoding: [utf8ToStr] *)

(** The body of the loop of the fallback for [escape]: the string [escaped]
    at the end of the turn. *)
Definition utf8ToStr_escape_body (utf8Str : jsstring) (i : nat) (escaped : jsstring)
  : result jsstring :=
  if Host.nonEscapedChar_test (utf8Str !! i)
  then Ok (Host.append_index escaped (utf8Str !! i))
  else
    match Host.charCodeAt utf8Str i with
    | Some charCode =>
        if (256 <=? charCode)%Z
        then hex ← intToHex charCode 4; Ok (escaped ++ [Host.char_percent; Host.char_u] ++ hex)
        else hex ← intToHex charCode 2; Ok (escaped ++ [Host.char_percent] ++ hex)
    | None => Ok (escaped ++ [Host.char_percent] ++ Host.str_NaN)
    end.

(** The fallback loop [for (let i = 0; i < utf8Str.length; i++)]. *)
Equations? utf8ToStr_escape_loop (utf8Str : jsstring) (i : nat) (escaped : jsstring)
  : result jsstring by wf (length utf8Str - i) lt :=
utf8ToStr_escape_loop utf8Str i escaped with decide (i < length utf8Str) := {
  | left _ with utf8ToStr_escape_body utf8Str i escaped := {
      | Ok escaped' => utf8ToStr_escape_loop utf8Str (i + 1) escaped'
      | Throw e => Throw e }
  | right _ => Ok escaped }.
Proof. lia. Qed.

(** The test for the byte order mark and its removal. *)
Definition utf8ToStr_strip (data : uint8array) : uint8array :=
  if bool_decide (data !! 0 = Some 0xEF%Z) &&
     bool_decide (data !! 1 = Some 0xBB%Z) &&
     bool_decide (data !! 2 = Some 0xBF%Z)
  then Host.subarray data 3 (length data)
  else data.

Definition utf8ToStr (w : Host.window) (data : uint8array) : result jsstring :=
  let uint8 := utf8ToStr_strip data in
  let utf8Str := stringFromCharCodes uint8 in
  escaped ←
    (if negb (Host.typeof_function (Host.window_escape w))
     then Host.call_global (Host.window_escape w) (Host.escape utf8Str)
     else utf8ToStr_escape_loop utf8Str 0 []);
  Host.decodeURIComponent escaped.

(** * Reference functions and predicates *)

(** The two bytes of a code unit, low byte first. *)
Definition le_pair (v : Z) : list Z := [Z.land v 0xFF; Z.land (Z.shiftr v 8) 0xFF].

(** What [leUtf16ToStr] appends for the bytes from an even index on: one
    code unit per pair, and one more for a last byte without a partner, whose
    missing partner reads as [undefined]. *)
Fixpoint le_units (bytes : uint8array) : jsstring :=
  match bytes with
  | lo :: hi :: rest =>
      Host.fromCharCode (Host.add (Some (Host.shift_left (Some hi) 8)) (Some lo))
        :: le_units rest
  | [lo] => [Host.fromCharCode (Host.add (Some (Host.shift_left None 8)) (Some lo))]
  | [] => []
  end.


(** The code units of a text of ASCII characters, to write examples. *)
Definition js (s : string) : jsstring :=
  map (fun a => Z.of_N (Ascii.N_of_ascii a)) (String.list_ascii_of_string s).

(** A lowercase hexadecimal digit: [0] to [9] or [a] to [f]. *)
Definition is_lower_hex (c : Z) : Prop :=
  (48 <= c <= 57)%Z ∨ (97 <= c <= 102)%Z.

(** A percent-encoded string and the code units that it stands for: a code
    unit other than [%] stands for itself, and [%] followed by two
    hexadecimal digits stands for their value. *)
Inductive pct_form : jsstring → list Z → Prop :=
| pct_nil : pct_form [] []
| pct_lit c s bs :
    c ≠ Host.char_percent → pct_form s bs → pct_form (c :: s) (c :: bs)
| pct_esc h1 h2 s bs :
    Host.is_hex_digit h1 = true → Host.is_hex_digit h2 = true →
    pct_form s bs →
    pct_form (Host.char_percent :: h1 :: h2 :: s)
             ((16 * Host.hex_digit_value h1 + Host.hex_digit_value h2)%Z :: bs).

(** The code points of a string, when none of its surrogates is without
    its partner. *)
Fixpoint code_points (s : jsstring) : option (list Z) :=
  match s with
  | [] => Some []
  | c :: rest =>
      if Host.is_trail_surrogate c then None
      else if Host.is_lead_surrogate c then
        match rest with
        | d :: rest' =>
            if Host.is_trail_surrogate d
            then (fun cps => Host.surrogate_pair_to_code_point c d :: cps)
                   <$> code_points rest'
            else None
        | [] => None
        end
      else (fun cps => c :: cps) <$> code_points rest
  end.

(** A text without unpaired surrogate. *)
Definition well_formed (s : jsstring) : Prop := is_Some (code_points s).

(** A Unicode scalar value: a code point that is not a surrogate. *)
Definition is_scalar (cp : Z) : Prop :=
  (0 <= cp < 0xD800)%Z ∨ (0xE000 <= cp <= 0x10FFFF)%Z.

(** What the fallback for [escape] writes for a byte: the byte, or its
    escape with lowercase digits. *)
Definition percent_lower (b : Z) : jsstring :=
  [Host.char_percent; Host.hex_lower (b / 16); Host.hex_lower (b mod 16)].

Definition esc_byte (b : Z) : jsstring :=
  if Host.nonEscapedChar_class b then [b] else percent_lower b.

(** [utf8ToStr] after the test for the byte order mark: the three steps that
    decode the bytes [uint8]. *)
Definition utf8ToStr_decode (w : Host.window) (uint8 : uint8array) : result jsstring :=
  let utf8Str := stringFromCharCodes uint8 in
  escaped ←
    (if negb (Host.typeof_function (Host.window_escape w))
     then Host.call_global (Host.window_escape w) (Host.escape utf8Str)
     else utf8ToStr_escape_loop utf8Str 0 []);
  Host.decodeURIComponent escaped.

(** The byte order mark. *)
Definition BOM : uint8array := [0xEF; 0xBB; 0xBF]%Z.

(** A host that has both primitives, as every browser does, and one that
    has neither. *)
Definition browser : Host.window :=
  {| Host.window_unescape := Host.Builtin; Host.window_escape := Host.Builtin |}.

Definition bare_host : Host.window :=
  {| Host.window_unescape := Host.Undeclared; Host.window_escape := Host.Undeclared |}.

(** A string of escaped octets: a percent-encoded string whose code units
    outside the escapes are ASCII, as the two implementations of [escape]
    write for a string of bytes. *)
Inductive octet_form : jsstring → list Z → Prop :=
| octet_nil : octet_form [] []
| octet_lit c s bs :
    (0 <= c < 0x80)%Z → c ≠ Host.char_percent →
    octet_form s bs → octet_form (c :: s) (c :: bs)
| octet_esc h1 h2 s bs :
    Host.is_hex_digit h1 = true → Host.is_hex_digit h2 = true →
    octet_form s bs →
    octet_form (Host.char_percent :: h1 :: h2 :: s)
               ((16 * Host.hex_digit_value h1 + Host.hex_digit_value h2)%Z :: bs).

(** The [j] continuation octets at the head of a list of octets. *)
Fixpoint conts_of (j : nat) (bs : list Z) : option (list Z) :=
  match j with
  | O => Some []
  | S j' =>
      match bs with
      | b :: rest =>
          if Host.in_range 0x80 0xBF b
          then (fun l => b :: l) <$> conts_of j' rest
          else None
      | [] => None
      end
  end.

(** One turn of [Decode] read on the octets that the string stands for: the
    code units that it appends and the number of octets that it consumes. *)
Definition decode_octets_step (bs : list Z) : result (jsstring * nat) :=
  match bs with
  | [] => Ok ([], 0)
  | B :: rest =>
      let n := Host.leading_ones B in
      if decide (n = 0) then Ok ([B], 1)
      else if decide (n = 1 ∨ 4 < n) then Throw URIError
      else
        match conts_of (n - 1) rest with
        | None => Throw URIError
        | Some conts =>
            let V := Host.utf8_value B conts in
            if Host.utf8_valid n V then Ok (Host.utf16_encode V, n)
            else Throw URIError
        end
  end.

(** The two paths that [utf8ToStr] chooses between, each followed by the
    last step: the primitive [escape], and the loop written in its place. *)
Definition utf8ToStr_native (uint8 : uint8array) : result jsstring :=
  Host.decodeURIComponent (Host.escape (stringFromCharCodes uint8)).

Definition utf8ToStr_fallback (uint8 : uint8array) : result jsstring :=
  escaped ← utf8ToStr_escape_loop (stringFromCharCodes uint8) 0 [];
  Host.decodeURIComponent escaped.

(** A text of ASCII characters. *)
Definition is_ascii (s : jsstring) : Prop := Forall (fun c => (0 <= c < 0x80)%Z) s.

(** A text without its first character when that is U+FEFF. *)
Definition without_BOM_char (t : jsstring) : jsstring :=
  match t with
  | c :: t' => if (c =? 0xFEFF)%Z then t' else t
  | [] => []
  end.

(** A string in which no [%] is directly followed by [u]. *)
Fixpoint no_percent_u (s : jsstring) : Prop :=
  match s with
  | c :: rest =>
      (c = Host.char_percent → head rest ≠ Some Host.char_u) ∧ no_percent_u rest
  | [] => True
  end.

(** What the fallback for [escape] writes for a code unit: the code unit,
    [%XX] below 256 and [%uXXXX] from 256 on, with lowercase digits. *)
Definition esc_unit (c : Z) : jsstring :=
  if Host.nonEscapedChar_class c then [c]
  else if (256 <=? c)%Z then
    [Host.char_percent; Host.char_u; Host.hex_lower (c / 4096);
     Host.hex_lower (c / 256 mod 16); Host.hex_lower (c / 16 mod 16);
     Host.hex_lower (c mod 16)]
  else percent_lower c.
(** * Proofs *)

(** ** Tactics *)

(** Case analysis on the integer comparisons of the goal, and on those of
    the hypotheses. *)
Ltac case_ltb :=
  repeat match goal with
  | |- context [(?a <? ?b)%Z] => destruct (Z.ltb_spec a b)
  end.

Ltac case_tests :=
  repeat match goal with
  | _ : context [(?a <=? ?b)%Z] |- _ => destruct (Z.leb_spec a b)
  | _ : context [(?a =? ?b)%Z] |- _ => destruct (Z.eqb_spec a b)
  | |- context [(?a <=? ?b)%Z] => destruct (Z.leb_spec a b)
  end.

(** Linear arithmetic with quotients and remainders by constants. *)
Ltac euclid := Z.div_mod_to_equations; lia.


(** ** Arithmetic of the bitwise operators *)

Lemma wrap32_small z : (- 2 ^ 31 <= z < 2 ^ 31)%Z → Host.wrap32 z = z.
Proof. intros. unfold Host.wrap32. rewrite Z.mod_small; lia. Qed.

Lemma land_255 v : Z.land v 255 = (v mod 256)%Z.
Proof. apply (Z.land_ones v 8). lia. Qed.

Lemma bit_and_255 v : (0 <= v < 2 ^ 31)%Z → Host.bit_and (Some v) 0xFF = (v mod 256)%Z.
Proof.
  intros Hv. unfold Host.bit_and, Host.ToInt32.
  rewrite (wrap32_small v) by lia. rewrite (wrap32_small 255) by lia.
  apply land_255.
Qed.

Lemma le_pair_stored v :
  is_code_unit v →
  [Host.bit_and (Some v) 0xFF mod 256;
   Host.bit_and (Some (Host.shift_right (Some v) 8)) 0xFF mod 256]%Z = le_pair v.
Proof.
  unfold is_code_unit, le_pair. intros Hv.
  assert (Host.shift_right (Some v) 8 = v / 256)%Z as ->.
  { unfold Host.shift_right, Host.ToInt32. rewrite (wrap32_small v) by lia.
    apply (Z.shiftr_div_pow2 v 8). lia. }
  rewrite !bit_and_255 by (euclid).
  rewrite (Z.shiftr_div_pow2 v 8) by lia. change (2 ^ 8)%Z with 256%Z.
  rewrite !land_255, !Zmod_mod. reflexivity.
Qed.

Lemma le_pair_bytes v : is_bytes (le_pair v).
Proof.
  unfold le_pair. rewrite !land_255.
  repeat constructor; unfold is_byte; euclid.
Qed.

Lemma le_units_pair v rest :
  is_code_unit v → le_units (le_pair v ++ rest) = v :: le_units rest.
Proof.
  unfold is_code_unit, le_pair. intros Hv. simpl. f_equal.
  rewrite (Z.shiftr_div_pow2 v 8), !land_255 by lia. change (2 ^ 8)%Z with 256%Z.
  unfold Host.shift_left, Host.ToInt32.
  rewrite (wrap32_small (_ mod _)) by (euclid).
  rewrite (Z.shiftl_mul_pow2 _ 8) by lia. change (2 ^ 8)%Z with 256%Z.
  rewrite wrap32_small by (euclid).
  simpl. euclid.
Qed.

(** ** The loops of the UTF-16 functions *)

Lemma strToLeUtf16_loop_eq str i res :
  strToLeUtf16_loop str i res =
  if decide (i < length res) then
    let value := Host.charCodeAt str (i / 2) in
    let res1 := Host.store res i (Host.bit_and value 0xFF) in
    let res2 :=
      Host.store res1 (i + 1) (Host.bit_and (Some (Host.shift_right value 8)) 0xFF) in
    strToLeUtf16_loop str (i + 2) res2
  else res.
Proof. rewrite strToLeUtf16_loop_equation_1. destruct (decide _); reflexivity. Qed.

Lemma strToLeUtf16_loop_spec str :
  is_string str →
  ∀ n k done todo,
    n = length str - k → k <= length str →
    length done = 2 * k → length todo = 2 * (length str - k) →
    strToLeUtf16_loop str (2 * k) (done ++ todo) = done ++ flat_map le_pair (drop k str).
Proof.
  intros Hstr. induction n as [|n IH]; intros k done todo Hn Hk Hdone Htodo.
  - rewrite strToLeUtf16_loop_eq, length_app.
    destruct (decide _) as [Hlt|_]; [lia|].
    rewrite drop_ge by lia. destruct todo; [reflexivity | simpl in Htodo; lia].
  - rewrite strToLeUtf16_loop_eq, length_app.
    destruct (decide _) as [_|Hge]; [|lia].
    destruct (lookup_lt_is_Some_2 str k) as [v Hv]; [lia|].
    destruct todo as [|x [|y todo]]; [simpl in Htodo; lia..|].
    cbv zeta. unfold Host.charCodeAt.
    replace (2 * k / 2) with k by (apply Nat.div_unique_exact; lia).
    rewrite Hv. unfold Host.store.
    assert (is_code_unit v) as Hcu by (eapply Forall_lookup_1; eauto).
    match goal with |- strToLeUtf16_loop _ _ ?res = _ =>
      assert (res = (done ++ le_pair v) ++ todo) as ->
    end.
    { rewrite <- Hdone, <- (le_pair_stored v Hcu).
      rewrite (insert_app_r_alt done _ (length done)) by lia.
      rewrite Nat.sub_diag. simpl.
      rewrite (insert_app_r_alt done _ (length done + 1)) by lia.
      replace (length done + 1 - length done) with 1 by lia. simpl.
      rewrite <- app_assoc. reflexivity. }
    replace (2 * k + 2) with (2 * (k + 1)) by lia.
    rewrite IH; [|lia|lia|rewrite !length_app; simpl; lia|simpl in Htodo; lia].
    rewrite (drop_S str v k Hv). simpl.
    rewrite <- !app_assoc. replace (k + 1) with (S k) by lia. reflexivity.
Qed.

Lemma strToLeUtf16_spec str : is_string str → strToLeUtf16 str = flat_map le_pair str.
Proof.
  intros Hstr. unfold strToLeUtf16, Host.new_Uint8Array.
  apply (strToLeUtf16_loop_spec str Hstr (length str) 0 []); simpl;
    rewrite ?length_replicate; lia.
Qed.

Lemma leUtf16ToStr_loop_eq bytes i str :
  leUtf16ToStr_loop bytes i str =
  if decide (i < length bytes) then
    leUtf16ToStr_loop bytes (i + 2)
      (str ++ [Host.fromCharCode
                 (Host.add (Some (Host.shift_left (bytes !! (i + 1)) 8)) (bytes !! i))])
  else str.
Proof. rewrite leUtf16ToStr_loop_equation_1. destruct (decide _); reflexivity. Qed.

Lemma leUtf16ToStr_loop_spec bytes :
  ∀ n i str, length bytes - i <= n →
    leUtf16ToStr_loop bytes i str = str ++ le_units (drop i bytes).
Proof.
  induction n as [|n IH]; intros i str Hn; rewrite leUtf16ToStr_loop_eq;
    destruct (decide _) as [Hlt|Hge]; try lia;
    try (rewrite drop_ge by lia; simpl; rewrite app_nil_r; reflexivity).
  destruct (lookup_lt_is_Some_2 bytes i) as [lo Hlo]; [lia|].
  rewrite IH by lia. rewrite (drop_S bytes lo i Hlo), Hlo.
  destruct (bytes !! (i + 1)) as [hi|] eqn:Hhi.
  - replace (i + 1) with (S i) in Hhi by lia.
    rewrite (drop_S bytes hi (S i) Hhi). simpl.
    replace (i + 2) with (S (S i)) by lia. rewrite <- app_assoc. reflexivity.
  - apply lookup_ge_None_1 in Hhi.
    rewrite !drop_ge by lia. simpl. rewrite <- app_assoc. reflexivity.
Qed.

Lemma leUtf16ToStr_spec bytes : leUtf16ToStr bytes = le_units bytes.
Proof. unfold leUtf16ToStr. rewrite (leUtf16ToStr_loop_spec bytes (length bytes)) by lia. reflexivity. Qed.

(** ** Pairs of bytes and code units *)

Lemma le_units_app n : ∀ bytes rest,
  length bytes = 2 * n → le_units (bytes ++ rest) = le_units bytes ++ le_units rest.
Proof.
  induction n as [|n IH]; intros [|lo [|hi bytes]] rest Hlen; simpl in Hlen; try lia.
  - reflexivity.
  - simpl. rewrite IH by lia. reflexivity.
Qed.

Lemma le_units_length n : ∀ bytes, length bytes = 2 * n → length (le_units bytes) = n.
Proof.
  induction n as [|n IH]; intros [|lo [|hi bytes]] Hlen; simpl in Hlen; try lia.
  - reflexivity.
  - simpl. rewrite IH by lia. reflexivity.
Qed.

Lemma le_units_single b : is_byte b → le_units [b] = [b].
Proof.
  unfold is_byte. intros Hb. simpl. rewrite Z.mod_small; [reflexivity|].
  change (Host.shift_left None 8) with 0%Z. lia.
Qed.

Lemma le_units_flat_map t : is_string t → le_units (flat_map le_pair t) = t.
Proof.
  induction 1 as [|v t Hv _ IH]; [reflexivity|].
  cbn [flat_map]. rewrite le_units_pair, IH by done. reflexivity.
Qed.

Lemma le_pair_unit lo hi :
  is_byte lo → is_byte hi →
  let unit := Host.fromCharCode (Host.add (Some (Host.shift_left (Some hi) 8)) (Some lo)) in
  is_code_unit unit ∧ le_pair unit = [lo; hi].
Proof.
  unfold is_byte, is_code_unit, le_pair. intros Hlo Hhi. simpl.
  unfold Host.shift_left, Host.ToInt32.
  rewrite (wrap32_small hi) by lia.
  rewrite (Z.shiftl_mul_pow2 _ 8) by lia. change (2 ^ 8)%Z with 256%Z.
  rewrite wrap32_small by lia.
  rewrite (Z.mod_small (hi * 256 + lo)) by lia.
  rewrite (Z.shiftr_div_pow2 _ 8), !land_255 by lia. change (2 ^ 8)%Z with 256%Z.
  split; [lia|]. f_equal; [|f_equal]; euclid.
Qed.

Lemma flat_map_le_units n : ∀ bytes,
  length bytes = 2 * n → is_bytes bytes →
  is_string (le_units bytes) ∧ flat_map le_pair (le_units bytes) = bytes.
Proof.
  induction n as [|n IH]; intros [|lo [|hi bytes]] Hlen Hbytes; simpl in Hlen; try lia.
  - split; [constructor | reflexivity].
  - apply Forall_cons in Hbytes as [Hlo Hbytes]. apply Forall_cons in Hbytes as [Hhi Hbytes].
    destruct (IH bytes) as [IH1 IH2]; [lia|done|].
    destruct (le_pair_unit lo hi Hlo Hhi) as [Hunit Hpair].
    split.
    + simpl. constructor; assumption.
    + cbn [le_units flat_map]. rewrite Hpair, IH2. reflexivity.
Qed.

Lemma flat_map_le_pair_lookup t : ∀ i v,
  t !! i = Some v →
  flat_map le_pair t !! (2 * i) = Some (Z.land v 0xFF) ∧
  flat_map le_pair t !! (2 * i + 1) = Some (Z.land (Z.shiftr v 8) 0xFF).
Proof.
  induction t as [|c t IH]; intros [|i] v Hv; simplify_eq/=.
  - split; reflexivity.
  - replace (i + S (i + 0)) with (S (2 * i)) by lia. simpl.
    apply IH. assumption.
Qed.

Lemma flat_map_le_pair_length (t : list Z) : length (flat_map le_pair t) = 2 * length t.
Proof. induction t as [|c t IH]; simpl; lia. Qed.

Lemma odd_length_snoc (data : list Z) :
  Nat.Odd (length data) →
  ∃ bytes b, data = bytes ++ [b] ∧ length bytes = 2 * (length data / 2).
Proof.
  intros [m Hm]. destruct (decide (data = [])) as [->|Hne]; [simpl in Hm; lia|].
  destruct (exists_last Hne) as (bytes & b & ->).
  exists bytes, b. split; [reflexivity|].
  rewrite length_app in Hm |- *. cbn [length] in Hm |- *.
  replace (length bytes + 1) with (1 + m * 2) by lia.
  rewrite Nat.div_add by lia. change (1 / 2) with 0. lia.
Qed.

(** ** [stringFromCharCodes] *)

Lemma stringFromCharCodes_loop_eq args i ret :
  stringFromCharCodes_loop args i ret =
  if decide (i < length args) then
    stringFromCharCodes_loop args (i + stringFromCharCodes_max)
      (ret ++ Host.fromCharCode_apply
                (Host.subarray args i (i + stringFromCharCodes_max)))
  else ret.
Proof. rewrite stringFromCharCodes_loop_equation_1. destruct (decide _); reflexivity. Qed.

Lemma stringFromCharCodes_max_pos : 0 < stringFromCharCodes_max.
Proof. unfold stringFromCharCodes_max. lia. Qed.

Lemma stringFromCharCodes_loop_spec args :
  ∀ n i ret, length args - i <= n →
    stringFromCharCodes_loop args i ret = ret ++ Host.fromCharCode_apply (drop i args).
Proof.
  pose proof stringFromCharCodes_max_pos as Hmax.
  induction n as [|n IH]; intros i ret Hn; rewrite stringFromCharCodes_loop_eq;
    destruct (decide _) as [Hlt|Hge]; try lia;
    try (rewrite drop_ge by lia; simpl; rewrite app_nil_r; reflexivity).
  rewrite IH by lia. rewrite <- app_assoc. f_equal.
  unfold Host.subarray, Host.fromCharCode_apply. rewrite <- map_app. f_equal.
  replace (i + stringFromCharCodes_max - i) with stringFromCharCodes_max by lia.
  rewrite <- drop_drop. apply take_drop.
Qed.

Lemma stringFromCharCodes_spec args :
  stringFromCharCodes args = Host.fromCharCode_apply args.
Proof.
  unfold stringFromCharCodes.
  rewrite (stringFromCharCodes_loop_spec args (length args)) by lia. reflexivity.
Qed.

Lemma fromCharCode_apply_bytes args : is_bytes args → Host.fromCharCode_apply args = args.
Proof.
  unfold Host.fromCharCode_apply. induction 1 as [|b args Hb _ IH]; [reflexivity|].
  unfold is_byte in Hb. rewrite map_cons, IH. simpl. rewrite Z.mod_small by lia. reflexivity.
Qed.

Lemma stringFromCharCodes_bytes args : is_bytes args → stringFromCharCodes args = args.
Proof. intros. rewrite stringFromCharCodes_spec. by apply fromCharCode_apply_bytes. Qed.

(** ** Hexadecimal digits *)

Lemma hex_digits_eq n :
  Host.hex_digits n =
  if decide (n < 16)%Z then [Host.hex_lower n]
  else Host.hex_digits (n / 16) ++ [Host.hex_lower (n mod 16)].
Proof. rewrite Host.hex_digits_equation_1. destruct (decide _); reflexivity. Qed.

Lemma hex_digits_ind (P : Z → Prop) :
  (∀ n, (0 <= n < 16)%Z → P n) →
  (∀ n, (16 <= n)%Z → P (n / 16)%Z → P n) →
  ∀ n, (0 <= n)%Z → P n.
Proof.
  intros Hbase Hstep n Hn. pattern n. apply Zlt_0_ind; [|assumption].
  clear n Hn. intros n IH Hn.
  destruct (decide (n < 16)%Z); [apply Hbase; lia|].
  apply Hstep; [lia|]. apply IH. euclid.
Qed.

Lemma hex_lower_digit d :
  (0 <= d < 16)%Z →
  is_lower_hex (Host.hex_lower d) ∧
  Host.is_hex_digit (Host.hex_lower d) = true ∧
  Host.hex_digit_value (Host.hex_lower d) = d.
Proof.
  intros Hd. unfold is_lower_hex, Host.hex_lower, Host.is_hex_digit,
    Host.hex_digit_value, Host.in_range.
  destruct (Z.ltb_spec d 10); repeat split; try lia;
    repeat match goal with
    | |- context [(?a <=? ?b)%Z] => destruct (Z.leb_spec a b); try lia
    end; simpl; lia.
Qed.

Lemma hex_upper_digit d :
  (0 <= d < 16)%Z →
  Host.is_hex_digit (Host.hex_upper d) = true ∧
  Host.hex_digit_value (Host.hex_upper d) = d ∧
  Host.hex_upper d ≠ Host.char_percent.
Proof.
  intros Hd. unfold Host.hex_upper, Host.is_hex_digit,
    Host.hex_digit_value, Host.in_range, Host.char_percent.
  destruct (Z.ltb_spec d 10); repeat split; try lia;
    repeat match goal with
    | |- context [(?a <=? ?b)%Z] => destruct (Z.leb_spec a b); try lia
    end; simpl; lia.
Qed.

Lemma parseInt16_from_snoc s c : ∀ acc,
  Forall (fun c => Host.is_hex_digit c = true) s → Host.is_hex_digit c = true →
  Host.parseInt16_from (s ++ [c]) acc =
  Some (16 * default 0%Z (Host.parseInt16_from s acc) + Host.hex_digit_value c)%Z.
Proof.
  intros acc Hs Hc. revert acc. induction Hs as [|d s Hd _ IH]; intros acc; simpl.
  - rewrite Hc. reflexivity.
  - rewrite Hd. apply IH.
Qed.

Lemma hex_digits_spec n :
  (0 <= n)%Z →
  Forall is_lower_hex (Host.hex_digits n) ∧
  Forall (fun c => Host.is_hex_digit c = true) (Host.hex_digits n) ∧
  (∀ acc, default 0%Z acc = 0%Z → Host.parseInt16_from (Host.hex_digits n) acc = Some n) ∧
  (n ≠ 0%Z → head (Host.hex_digits n) ≠ Some Host.char_0) ∧
  0 < length (Host.hex_digits n).
Proof.
  revert n. apply hex_digits_ind.
  - intros n Hn. rewrite hex_digits_eq. destruct (decide _); [|lia].
    destruct (hex_lower_digit n Hn) as (Hl & Hh & Hv).
    repeat split.
    + by constructor.
    + by constructor.
    + intros acc Hacc. simpl. rewrite Hh, Hacc, Hv. f_equal; lia.
    + intros Hne. simpl. unfold Host.hex_lower, Host.char_0.
      destruct (Z.ltb_spec n 10); intros [=]; lia.
    + simpl. lia.
  - intros n Hn (IHl & IHh & IHv & IHz & IHlen). rewrite hex_digits_eq.
    destruct (decide _); [lia|].
    destruct (hex_lower_digit (n mod 16)) as (Hl & Hh & Hv);
      [euclid|].
    repeat split.
    + apply Forall_app; split; [assumption | by constructor].
    + apply Forall_app; split; [assumption | by constructor].
    + intros acc Hacc. rewrite parseInt16_from_snoc, (IHv acc Hacc), Hv by done.
      f_equal. simpl. euclid.
    + intros _. destruct (Host.hex_digits (n / 16)) as [|d ds] eqn:Hds;
        [simpl in IHlen; lia|].
      simpl in *. apply IHz. euclid.
    + rewrite length_app. simpl. lia.
Qed.

Lemma parseInt16_from_zeros k s acc :
  default 0%Z acc = 0%Z →
  ∃ acc', default 0%Z acc' = 0%Z ∧
    Host.parseInt16_from (replicate k Host.char_0 ++ s) acc = Host.parseInt16_from s acc'.
Proof.
  revert acc. induction k as [|k IH]; intros acc Hacc; [by exists acc|].
  simpl. rewrite Hacc. apply IH. reflexivity.
Qed.

Lemma join_holes_zero n : Host.join_holes n [Host.char_0] = replicate (n - 1) Host.char_0.
Proof.
  unfold Host.join_holes. induction (n - 1) as [|k IH]; [reflexivity|].
  simpl. rewrite IH. reflexivity.
Qed.

Lemma toString16_nonempty num : 0 < length (Host.toString16 num).
Proof.
  assert (∀ n, 0 < length (Host.hex_digits n)) as Hhex.
  { intros n. rewrite hex_digits_eq. destruct (decide _); [simpl; lia|].
    rewrite length_app. simpl. lia. }
  unfold Host.toString16. destruct (_ <? _)%Z; [simpl; lia | apply Hhex].
Qed.

Lemma intToHex_within_cases limit num size :
  let digits := Host.toString16 num in
  ((size <= Z.of_nat (length digits))%Z ∨
   ((size - Z.of_nat (length digits) + 1 < 2 ^ 32)%Z ∧ (size <= limit)%Z) →
   intToHex_within limit num size
   = Ok (replicate (Z.to_nat size - length digits) Host.char_0 ++ digits)) ∧
  ((Z.of_nat (length digits) < size)%Z →
   (2 ^ 32 <= size - Z.of_nat (length digits) + 1)%Z ∨ (limit < size)%Z →
   intToHex_within limit num size = Throw RangeError).
Proof.
  cbv zeta. pose proof (toString16_nonempty num) as Hlen. unfold intToHex_within.
  set (digits := Host.toString16 num) in *.
  destruct (Z.leb_spec size (Z.of_nat (length digits))) as [Hle|Hgt].
  { split; [|lia]. intros _. replace (Z.to_nat size - _) with 0 by lia. reflexivity. }
  unfold Host.new_Array. destruct (decide _) as [Hrange|Hrange]; cbn;
    [|split; [lia | reflexivity]].
  unfold Host.join_holes_within. rewrite join_holes_zero. cbn [length].
  destruct (Z.leb_spec ((Z.of_nat (Z.to_nat (size - Z.of_nat (length digits) + 1)) - 1)
                        * Z.of_nat 1) limit) as [Hjoin|Hjoin]; cbn;
    [|split; [lia | reflexivity]].
  unfold Host.concat_within. rewrite length_replicate.
  match goal with
  | |- context [(?a <=? limit)%Z] => destruct (Z.leb_spec a limit) as [Hcat|Hcat]
  end; [|split; [lia | reflexivity]].
  split; [|lia]. intros _. do 3 f_equal. lia.
Qed.

Lemma intToHex_spec num size :
  (0 <= num)%Z → (size <= Host.max_string_length)%Z →
  intToHex num size =
  Ok (replicate (Z.to_nat size - length (Host.hex_digits num)) Host.char_0
        ++ Host.hex_digits num).
Proof.
  intros Hnum Hsize.
  assert (Host.toString16 num = Host.hex_digits num) as Hts.
  { unfold Host.toString16. destruct (Z.ltb_spec num 0); [lia | reflexivity]. }
  destruct (intToHex_within_cases Host.max_string_length num size) as [Hok _].
  rewrite Hts in Hok. apply Hok. right.
  unfold Host.max_string_length in *. lia.
Qed.

Lemma max_string_length_value : (Host.max_string_length = 536870888)%Z.
Proof. reflexivity. Qed.

Lemma intToHex_byte b :
  (0 <= b < 256)%Z →
  intToHex b 2 = Ok [Host.hex_lower (b / 16); Host.hex_lower (b mod 16)].
Proof.
  intros Hb. rewrite intToHex_spec; [|lia|rewrite max_string_length_value; lia].
  rewrite (hex_digits_eq b). destruct (decide (b < 16)%Z).
  - simpl. rewrite Z.div_small by lia. rewrite Z.mod_small by lia. reflexivity.
  - rewrite (hex_digits_eq (b / 16)).
    destruct (decide _); [|euclid]. reflexivity.
Qed.

(** ** [strToUtf8]: the loop that builds the array *)

Lemma strToUtf8_bytes_loop_eq utf8Str i res :
  strToUtf8_bytes_loop utf8Str i res =
  if decide (i < length utf8Str) then
    strToUtf8_bytes_loop utf8Str (i + 1)
      (Host.store res i (Host.bit_and (Host.charCodeAt utf8Str i) 0xFF))
  else res.
Proof. rewrite strToUtf8_bytes_loop_equation_1. destruct (decide _); reflexivity. Qed.

Lemma strToUtf8_bytes_loop_spec utf8Str :
  is_bytes utf8Str →
  ∀ n done todo,
    n = length todo → length done + length todo = length utf8Str →
    strToUtf8_bytes_loop utf8Str (length done) (done ++ todo)
    = done ++ drop (length done) utf8Str.
Proof.
  intros Hstr. induction n as [|n IH]; intros done todo Hn Hlen;
    rewrite strToUtf8_bytes_loop_eq; destruct (decide _) as [Hlt|Hge]; try lia.
  - destruct todo; [|discriminate]. rewrite drop_ge by lia. reflexivity.
  - destruct todo as [|x todo]; [discriminate|]. simpl in Hn, Hlen.
    destruct (lookup_lt_is_Some_2 utf8Str (length done)) as [c Hc]; [lia|].
    assert (is_byte c) as Hbyte by (eapply Forall_lookup_1; eauto).
    unfold is_byte in Hbyte.
    unfold Host.charCodeAt, Host.store. rewrite Hc.
    rewrite (insert_app_r_alt done _ (length done)) by lia.
    rewrite Nat.sub_diag. simpl.
    rewrite bit_and_255, Zmod_mod, Z.mod_small by lia.
    rewrite (cons_middle c done todo), app_assoc.
    replace (length done + 1) with (length (done ++ [c]))
      by (rewrite length_app; reflexivity).
    rewrite IH; [|lia|rewrite length_app; simpl; lia].
    rewrite <- app_assoc, length_app. simpl.
    rewrite (drop_S utf8Str c (length done) Hc).
    replace (length done + 1) with (S (length done)) by lia. reflexivity.
Qed.

Lemma strToUtf8_bytes_spec utf8Str :
  is_bytes utf8Str →
  strToUtf8_bytes_loop utf8Str 0 (Host.new_Uint8Array (length utf8Str)) = utf8Str.
Proof.
  intros Hstr.
  apply (strToUtf8_bytes_loop_spec utf8Str Hstr _ [] _ eq_refl).
  unfold Host.new_Uint8Array. rewrite length_replicate. reflexivity.
Qed.

(** ** [unescape]: the primitive and the fallback on percent-encoded strings *)

Lemma is_hex_digit_value h :
  Host.is_hex_digit h = true →
  (0 <= Host.hex_digit_value h < 16)%Z ∧ h ≠ Host.char_u ∧ h ≠ Host.char_percent.
Proof.
  unfold Host.is_hex_digit, Host.hex_digit_value, Host.in_range,
    Host.char_u, Host.char_percent.
  intros Hh.
  case_tests; simpl in *; try discriminate; lia.
Qed.

Lemma pct_form_app s1 b1 s2 b2 :
  pct_form s1 b1 → pct_form s2 b2 → pct_form (s1 ++ s2) (b1 ++ b2).
Proof. induction 1; intros; simpl; try constructor; auto. Qed.

Lemma unescape_pct_form s bs : pct_form s bs → Host.unescape s = bs.
Proof.
  induction 1 as [|c s bs Hc _ IH|h1 h2 s bs Hh1 Hh2 _ IH].
  - reflexivity.
  - simpl. destruct (Z.eqb_spec c Host.char_percent); [done|]. by rewrite IH.
  - destruct (is_hex_digit_value h1 Hh1) as (_ & Hu & _).
    cbn [Host.unescape]. rewrite Z.eqb_refl.
    destruct (Z.eqb_spec h1 Host.char_u); [done|].
    rewrite Hh1, Hh2. simpl.
    destruct s as [|a [|b [|c s']]]; rewrite IH; reflexivity.
Qed.

Lemma strToUtf8_unescape_loop_eq pcStr i utf8Str :
  strToUtf8_unescape_loop pcStr i utf8Str =
  if decide (i < length pcStr) then
    strToUtf8_unescape_loop pcStr
      ((strToUtf8_unescape_body pcStr i utf8Str).1 + 1)
      (strToUtf8_unescape_body pcStr i utf8Str).2
  else utf8Str.
Proof. rewrite strToUtf8_unescape_loop_equation_1. destruct (decide _); reflexivity. Qed.

Lemma strToUtf8_unescape_body_lit pre c s utf8Str :
  c ≠ Host.char_percent →
  strToUtf8_unescape_body (pre ++ c :: s) (length pre) utf8Str
  = (length pre, utf8Str ++ [c]).
Proof.
  intros Hc. unfold strToUtf8_unescape_body.
  rewrite list_lookup_middle by done.
  rewrite bool_decide_eq_false_2 by congruence. cbn.
  rewrite list_lookup_middle by done. reflexivity.
Qed.

Lemma strToUtf8_unescape_body_esc pre h1 h2 s utf8Str :
  Host.is_hex_digit h1 = true → Host.is_hex_digit h2 = true →
  strToUtf8_unescape_body (pre ++ Host.char_percent :: h1 :: h2 :: s) (length pre) utf8Str
  = (length pre + 2,
     utf8Str ++ [(16 * Host.hex_digit_value h1 + Host.hex_digit_value h2)%Z]).
Proof.
  intros Hh1 Hh2. unfold strToUtf8_unescape_body.
  destruct (is_hex_digit_value h1 Hh1) as (Hv1 & Hu & _).
  destruct (is_hex_digit_value h2 Hh2) as (Hv2 & _ & _).
  rewrite list_lookup_middle by done.
  rewrite bool_decide_eq_true_2 by done.
  assert (∀ k x, (h1 :: h2 :: s) !! k = x →
            (pre ++ Host.char_percent :: h1 :: h2 :: s) !! (length pre + S k) = x) as Hlk.
  { intros k x <-. rewrite lookup_app_r by lia.
    replace (length pre + S k - length pre) with (S k) by lia. reflexivity. }
  rewrite (Hlk 0 (Some h1)), (Hlk 1 (Some h2)) by reflexivity.
  rewrite (bool_decide_eq_false_2 (Some h1 = Some Host.char_u)) by congruence.
  rewrite andb_false_r. simpl.
  rewrite Hh1, Hh2, !andb_true_r.
  destruct (Z.leb_spec (Z.of_nat (length pre))
              (Z.of_nat (length (pre ++ Host.char_percent :: h1 :: h2 :: s)) - 3)) as [_|Hlt];
    [|rewrite length_app in Hlt; simpl in Hlt; lia].
  simpl. do 3 f_equal.
  unfold Host.substring.
  rewrite Nat.min_l, Nat.max_r by lia.
  replace (length pre + 3 - (length pre + 1)) with 2 by lia.
  replace (length pre + 1) with (length (pre ++ [Host.char_percent]))
    by (rewrite length_app; reflexivity).
  replace (pre ++ Host.char_percent :: h1 :: h2 :: s)
    with ((pre ++ [Host.char_percent]) ++ h1 :: h2 :: s)
    by (rewrite <- app_assoc; reflexivity).
  rewrite drop_app_length.
  cbn [take]. unfold Host.parseInt16. cbn [Host.parseInt16_from].
  rewrite Hh1, Hh2. cbn [default]. simpl. rewrite Z.mod_small by lia. reflexivity.
Qed.

Lemma strToUtf8_unescape_loop_pct_form s bs :
  pct_form s bs →
  ∀ pre utf8Str,
    strToUtf8_unescape_loop (pre ++ s) (length pre) utf8Str = utf8Str ++ bs.
Proof.
  induction 1 as [|c s bs Hc _ IH|h1 h2 s bs Hh1 Hh2 _ IH]; intros pre utf8Str;
    rewrite strToUtf8_unescape_loop_eq; destruct (decide _) as [Hlt|Hge];
    rewrite ?length_app in *; simpl in *; try lia.
  - rewrite app_nil_r. reflexivity.
  - rewrite strToUtf8_unescape_body_lit by done. simpl.
    rewrite (cons_middle c pre s), app_assoc.
    replace (length pre + 1) with (length (pre ++ [c]))
      by (rewrite length_app; reflexivity).
    rewrite IH, <- app_assoc. reflexivity.
  - rewrite strToUtf8_unescape_body_esc by done. simpl.
    change (Host.char_percent :: h1 :: h2 :: s)
      with ([Host.char_percent; h1; h2] ++ s).
    rewrite app_assoc.
    replace (length pre + 2 + 1) with (length (pre ++ [Host.char_percent; h1; h2]))
      by (rewrite length_app; simpl; lia).
    rewrite IH, <- app_assoc. reflexivity.
Qed.

Lemma strToUtf8_unescape_pct_form s bs :
  pct_form s bs → strToUtf8_unescape_loop s 0 [] = bs.
Proof. intros H. apply (strToUtf8_unescape_loop_pct_form s bs H [] []). Qed.

(** ** UTF-8 and UTF-16 *)

Lemma utf8_encode_bytes cp : (0 <= cp <= 0x10FFFF)%Z → is_bytes (Host.utf8_encode cp).
Proof.
  intros Hcp. unfold Host.utf8_encode.
  case_ltb; repeat constructor; unfold is_byte; euclid.
Qed.

Lemma is_scalar_range cp : is_scalar cp → (0 <= cp <= 0x10FFFF)%Z.
Proof. unfold is_scalar. lia. Qed.

Lemma surrogate_tests c :
  (Host.is_lead_surrogate c = true ↔ (0xD800 <= c <= 0xDBFF)%Z) ∧
  (Host.is_trail_surrogate c = true ↔ (0xDC00 <= c <= 0xDFFF)%Z).
Proof.
  unfold Host.is_lead_surrogate, Host.is_trail_surrogate, Host.in_range.
  rewrite !andb_true_iff, !Z.leb_le. tauto.
Qed.

Lemma utf16_encode_pair c d :
  Host.is_lead_surrogate c = true → Host.is_trail_surrogate d = true →
  is_scalar (Host.surrogate_pair_to_code_point c d) ∧
  (0x10000 <= Host.surrogate_pair_to_code_point c d)%Z ∧
  Host.utf16_encode (Host.surrogate_pair_to_code_point c d) = [c; d].
Proof.
  intros Hc%surrogate_tests Hd%surrogate_tests.
  unfold is_scalar, Host.utf16_encode, Host.surrogate_pair_to_code_point.
  split; [lia|]. split; [lia|].
  destruct (Z.ltb_spec ((c - 55296) * 1024 + (d - 56320) + 65536) 65536); [lia|].
  f_equal; [|f_equal]; euclid.
Qed.

Lemma code_points_spec n : ∀ s cps,
  length s <= n → is_string s → code_points s = Some cps →
  Forall is_scalar cps ∧ flat_map Host.utf16_encode cps = s ∧
  (head cps = Some 0xFEFF%Z → head s = Some 0xFEFF%Z).
Proof.
  induction n as [|n IH]; intros [|c rest] cps Hlen Hs Hcps; simpl in Hlen; try lia;
    try (injection Hcps as <-; split; [constructor | split; [reflexivity | done]]).
  apply Forall_cons in Hs as [Hc Hs]. unfold is_code_unit in Hc.
  cbn [code_points] in Hcps.
  destruct (Host.is_trail_surrogate c) eqn:Htrail; [discriminate|].
  destruct (Host.is_lead_surrogate c) eqn:Hlead.
  - destruct rest as [|d rest]; [discriminate|].
    destruct (Host.is_trail_surrogate d) eqn:Hd; [|discriminate].
    apply Forall_cons in Hs as [_ Hs].
    destruct (code_points rest) as [cps'|] eqn:Hrest; [|discriminate].
    injection Hcps as <-.
    destruct (IH rest cps') as (IH1 & IH2 & _); [simpl in Hlen; lia|done..|].
    destruct (utf16_encode_pair c d Hlead Hd) as (Hsc & Hbig & Henc).
    split; [by constructor|]. split.
    + cbn [flat_map]. rewrite Henc, IH2. reflexivity.
    + simpl. intros [=]. lia.
  - destruct (code_points rest) as [cps'|] eqn:Hrest; [|discriminate].
    injection Hcps as <-.
    destruct (IH rest cps') as (IH1 & IH2 & _); [lia|done..|].
    assert (¬ (0xD800 <= c <= 0xDBFF)%Z) by (rewrite <- (proj1 (surrogate_tests c)); congruence).
    assert (¬ (0xDC00 <= c <= 0xDFFF)%Z) by (rewrite <- (proj2 (surrogate_tests c)); congruence).
    split; [constructor; [unfold is_scalar; lia | done]|]. split.
    + cbn [flat_map]. rewrite IH2. unfold Host.utf16_encode.
      destruct (Z.ltb_spec c 65536); [reflexivity | lia].
    + simpl. done.
Qed.

(** ** [encodeURIComponent] *)

Lemma pct_form_percent_upper bytes :
  is_bytes bytes → pct_form (flat_map Host.percent_upper bytes) bytes.
Proof.
  induction 1 as [|b bytes Hb _ IH]; [constructor|].
  unfold is_byte in Hb. cbn [flat_map]. unfold Host.percent_upper at 1.
  destruct (hex_upper_digit (b / 16)) as (Hh1 & Hv1 & _); [euclid|].
  destruct (hex_upper_digit (b mod 16)) as (Hh2 & Hv2 & _); [euclid|].
  replace b with (16 * Host.hex_digit_value (Host.hex_upper (b / 16))
                  + Host.hex_digit_value (Host.hex_upper (b mod 16)))%Z at 3
    by (rewrite Hv1, Hv2; euclid).
  simpl. by constructor.
Qed.

Lemma uriUnreserved_ascii c :
  Host.uriUnreserved c = true → (33 <= c <= 126)%Z ∧ c ≠ Host.char_percent.
Proof.
  unfold Host.uriUnreserved, Host.is_alnum, Host.in_range, Host.char_percent.
  intros [Hc|Hc]%orb_prop.
  - case_tests; simpl in *; try discriminate; lia.
  - apply bool_decide_eq_true_1 in Hc.
    repeat (apply elem_of_cons in Hc as [->|Hc]; [lia|]).
    by apply elem_of_nil in Hc.
Qed.

Lemma encodeURIComponent_spec n : ∀ s,
  length s <= n → is_string s →
  match code_points s with
  | Some cps =>
      ∃ pcStr, Host.encodeURIComponent s = Ok pcStr ∧
               pct_form pcStr (flat_map Host.utf8_encode cps)
  | None => Host.encodeURIComponent s = Throw URIError
  end.
Proof.
  induction n as [|n IH]; intros [|c rest] Hlen Hs; simpl in Hlen; try lia;
    try (exists []; split; [reflexivity | constructor]).
  apply Forall_cons in Hs as [Hc Hs]. unfold is_code_unit in Hc.
  cbn [code_points Host.encodeURIComponent].
  pose proof (surrogate_tests c) as [Hlead Htrail].
  destruct (Host.uriUnreserved c) eqn:Hunres.
  - apply uriUnreserved_ascii in Hunres as [Hrange Hpct].
    destruct (Host.is_trail_surrogate c); [lia|].
    destruct (Host.is_lead_surrogate c); [lia|].
    specialize (IH rest). destruct (code_points rest) as [cps|].
    + destruct IH as (pcStr & -> & Hform); [lia|done|].
      exists (c :: pcStr). split; [reflexivity|].
      cbn [flat_map]. unfold Host.utf8_encode at 1.
      destruct (Z.ltb_spec c 128); [|lia]. simpl. by constructor.
    + rewrite IH by (done || lia). reflexivity.
  - destruct (Host.is_trail_surrogate c) eqn:Ht; [reflexivity|].
    destruct (Host.is_lead_surrogate c) eqn:Hl.
    + destruct rest as [|d rest]; [reflexivity|].
      destruct (Host.is_trail_surrogate d) eqn:Hd; [|reflexivity].
      apply Forall_cons in Hs as [_ Hs].
      destruct (utf16_encode_pair c d Hl Hd) as (Hsc%is_scalar_range & _ & _).
      specialize (IH rest). destruct (code_points rest) as [cps|].
      * destruct IH as (pcStr & -> & Hform); [simpl in Hlen; lia|done|].
        eexists. split; [reflexivity|]. cbn [fmap option_fmap option_map flat_map].
        apply pct_form_app; [|done].
        apply pct_form_percent_upper, utf8_encode_bytes. assumption.
      * rewrite IH by (done || simpl in Hlen; lia). reflexivity.
    + specialize (IH rest). destruct (code_points rest) as [cps|].
      * destruct IH as (pcStr & -> & Hform); [lia|done|].
        eexists. split; [reflexivity|]. cbn [fmap option_fmap option_map flat_map].
        apply pct_form_app; [|done].
        apply pct_form_percent_upper, utf8_encode_bytes. lia.
      * rewrite IH by (done || lia). reflexivity.
Qed.

(** ** [utf8ToStr]: the fallback for [escape] *)

Lemma utf8ToStr_escape_loop_eq utf8Str i escaped :
  utf8ToStr_escape_loop utf8Str i escaped =
  if decide (i < length utf8Str) then
    match utf8ToStr_escape_body utf8Str i escaped with
    | Ok escaped' => utf8ToStr_escape_loop utf8Str (i + 1) escaped'
    | Throw e => Throw e
    end
  else Ok escaped.
Proof.
  rewrite utf8ToStr_escape_loop_equation_1. destruct (decide _); [|reflexivity].
  simpl. destruct (utf8ToStr_escape_body _ _ _); reflexivity.
Qed.

Lemma utf8ToStr_escape_body_byte utf8Str i escaped b :
  utf8Str !! i = Some b → is_byte b →
  utf8ToStr_escape_body utf8Str i escaped = Ok (escaped ++ esc_byte b).
Proof.
  unfold is_byte. intros Hb Hbyte.
  unfold utf8ToStr_escape_body, Host.charCodeAt, esc_byte. rewrite Hb. simpl.
  destruct (Host.nonEscapedChar_class b); [reflexivity|].
  destruct (Z.leb_spec 256 b); [lia|].
  rewrite intToHex_byte by lia. reflexivity.
Qed.

Lemma utf8ToStr_escape_loop_spec utf8Str :
  is_bytes utf8Str →
  ∀ n i escaped, length utf8Str - i <= n →
    utf8ToStr_escape_loop utf8Str i escaped
    = Ok (escaped ++ flat_map esc_byte (drop i utf8Str)).
Proof.
  intros Hstr. induction n as [|n IH]; intros i escaped Hn;
    rewrite utf8ToStr_escape_loop_eq; destruct (decide _) as [Hlt|Hge]; try lia;
    try (rewrite drop_ge by lia; simpl; rewrite app_nil_r; reflexivity).
  destruct (lookup_lt_is_Some_2 utf8Str i) as [b Hb]; [lia|].
  rewrite (utf8ToStr_escape_body_byte utf8Str i escaped b Hb)
    by (eapply Forall_lookup_1; eauto).
  rewrite IH by lia. rewrite (drop_S utf8Str b i Hb). cbn [flat_map].
  rewrite <- app_assoc. replace (i + 1) with (S i) by lia. reflexivity.
Qed.

(** ** [decodeURIComponent] *)

Lemma decodeURIComponent_cons C rest :
  Host.decodeURIComponent (C :: rest) =
  match Host.decode_step (C :: rest) with
  | Ok (units, consumed) =>
      (fun R => units ++ R) <$> Host.decodeURIComponent (drop (consumed - 1) rest)
  | Throw e => Throw e
  end.
Proof.
  rewrite Host.decodeURIComponent_equation_2.
  destruct (Host.decode_step (C :: rest)) as [[units consumed]|e]; reflexivity.
Qed.

Lemma decodeURIComponent_token tok R units :
  tok ≠ [] → Host.decode_step (tok ++ R) = Ok (units, length tok) →
  Host.decodeURIComponent (tok ++ R)
  = (fun S => units ++ S) <$> Host.decodeURIComponent R.
Proof.
  destruct tok as [|C tok]; [done|]. intros _ Hstep.
  rewrite <- app_comm_cons in *. rewrite decodeURIComponent_cons, Hstep.
  cbn [length]. replace (S (length tok) - 1) with (length tok) by lia.
  rewrite drop_app_length. reflexivity.
Qed.

Lemma nonEscapedChar_class_ascii b :
  Host.nonEscapedChar_class b = true → (42 <= b < 128)%Z.
Proof.
  unfold Host.nonEscapedChar_class, Host.is_alnum, Host.in_range. intros Hb.
  case_tests; simpl in *; try discriminate; lia.
Qed.

Lemma esc_byte_high b : (0x80 <= b)%Z → esc_byte b = percent_lower b.
Proof.
  intros Hb. unfold esc_byte.
  destruct (Host.nonEscapedChar_class b) eqn:Hclass; [|reflexivity].
  apply nonEscapedChar_class_ascii in Hclass. lia.
Qed.

Lemma percent_octet_lower b R :
  (0 <= b < 256)%Z → Host.percent_octet (percent_lower b ++ R) = Some b.
Proof.
  intros Hb. unfold percent_lower. cbn [app Host.percent_octet].
  destruct (hex_lower_digit (b / 16)) as (_ & Hh1 & Hv1); [euclid|].
  destruct (hex_lower_digit (b mod 16)) as (_ & Hh2 & Hv2); [euclid|].
  rewrite Z.eqb_refl, Hh1, Hh2, Hv1, Hv2. simpl. f_equal.
  euclid.
Qed.

Lemma continuation_octets_lower conts R :
  Forall (fun b => (0x80 <= b <= 0xBF)%Z) conts →
  Host.continuation_octets (length conts) (flat_map percent_lower conts ++ R)
  = Some conts.
Proof.
  induction 1 as [|b conts Hb _ IH]; [reflexivity|].
  cbn [length flat_map Host.continuation_octets]. rewrite <- app_assoc.
  rewrite percent_octet_lower by lia.
  unfold Host.in_range. destruct (Z.leb_spec 128 b); [|lia].
  destruct (Z.leb_spec b 191); [|lia]. cbn [andb].
  change (drop 3 (percent_lower b ++ ?l)) with l. rewrite IH. reflexivity.
Qed.

Lemma decode_step_sequence B conts R :
  (0xC0 <= B < 256)%Z →
  Host.leading_ones B = S (length conts) → 1 <= length conts <= 3 →
  Forall (fun b => (0x80 <= b <= 0xBF)%Z) conts →
  Host.utf8_valid (S (length conts)) (Host.utf8_value B conts) = true →
  Host.decode_step (flat_map percent_lower (B :: conts) ++ R)
  = Ok (Host.utf16_encode (Host.utf8_value B conts),
        length (flat_map percent_lower (B :: conts))).
Proof.
  intros HB Hn Hlen Hconts Hvalid.
  cbn [flat_map]. rewrite <- app_assoc.
  unfold Host.decode_step.
  rewrite percent_octet_lower by lia.
  unfold percent_lower at 1. cbn [app]. rewrite Z.eqb_refl. cbn [negb].
  rewrite Hn. destruct (decide _) as [|_]; [lia|].
  destruct (decide _) as [|_]; [lia|].
  change (drop 3 (percent_lower B ++ ?l)) with l.
  replace (S (length conts) - 1) with (length conts) by lia.
  rewrite continuation_octets_lower by done. rewrite Hvalid.
  do 2 f_equal. rewrite length_app. unfold percent_lower at 1. cbn [length].
  assert (length (flat_map percent_lower conts) = 3 * length conts) as ->; [|lia].
  clear. induction conts as [|b conts IH]; [reflexivity|].
  cbn [flat_map]. rewrite length_app, IH. simpl. lia.
Qed.

Lemma utf8_encode_sequence cp :
  is_scalar cp → (0x80 <= cp)%Z →
  ∃ B conts,
    Host.utf8_encode cp = B :: conts ∧
    (0xC0 <= B < 256)%Z ∧
    Host.leading_ones B = S (length conts) ∧ 1 <= length conts <= 3 ∧
    Forall (fun b => (0x80 <= b <= 0xBF)%Z) conts ∧
    Host.utf8_value B conts = cp ∧
    Host.utf8_valid (S (length conts)) cp = true.
Proof.
  unfold is_scalar. intros Hcp Hhigh. unfold Host.utf8_encode.
  destruct (Z.ltb_spec cp 128); [lia|].
  destruct (Z.ltb_spec cp 2048); [|destruct (Z.ltb_spec cp 65536)];
    eexists _, _; (split; [reflexivity|]);
    (split; [euclid|]);
    (split; [unfold Host.leading_ones;
             repeat match goal with
             | |- context [(?a <? ?b)%Z] =>
                 destruct (Z.ltb_spec a b); try (euclid)
             end; reflexivity|]);
    (split; [simpl; lia|]);
    (split; [repeat constructor; euclid|]);
    (split; [unfold Host.utf8_value; simpl; euclid|]);
    unfold Host.utf8_valid, Host.in_range; simpl;
    repeat match goal with
    | |- context [(?a <=? ?b)%Z] => destruct (Z.leb_spec a b); try lia
    end; reflexivity.
Qed.

Lemma decode_step_scalar cp R :
  is_scalar cp →
  Host.decode_step (flat_map esc_byte (Host.utf8_encode cp) ++ R)
  = Ok (Host.utf16_encode cp, length (flat_map esc_byte (Host.utf8_encode cp))).
Proof.
  intros Hcp. destruct (decide (cp < 0x80)%Z) as [Hlow|Hhigh].
  - assert (0 <= cp)%Z by (unfold is_scalar in Hcp; lia).
    unfold Host.utf8_encode, Host.utf16_encode.
    destruct (Z.ltb_spec cp 128); [|lia]. destruct (Z.ltb_spec cp 65536); [|lia].
    cbn [flat_map]. rewrite app_nil_r. unfold esc_byte.
    destruct (Host.nonEscapedChar_class cp) eqn:Hclass.
    + apply nonEscapedChar_class_ascii in Hclass.
      simpl. destruct (Z.eqb_spec cp Host.char_percent) as [Heq|_];
        [unfold Host.char_percent in Heq; lia | reflexivity].
    + unfold Host.decode_step. rewrite percent_octet_lower by lia.
      unfold percent_lower at 1. cbn [app]. rewrite Z.eqb_refl. cbn [negb].
      unfold Host.leading_ones. destruct (Z.ltb_spec cp 128); [|lia]. reflexivity.
  - destruct (utf8_encode_sequence cp Hcp) as (B & conts & -> & HB & Hn & Hlen & Hconts & Hval & Hvalid);
      [lia|].
    assert (flat_map esc_byte (B :: conts) = flat_map percent_lower (B :: conts)) as ->.
    { cbn [flat_map]. rewrite esc_byte_high by lia. f_equal.
      clear -Hconts. induction Hconts as [|b conts Hb _ IH]; [reflexivity|].
      cbn [flat_map]. rewrite esc_byte_high, IH by lia. reflexivity. }
    rewrite decode_step_sequence by (rewrite ?Hval; done).
    rewrite Hval. reflexivity.
Qed.

Lemma esc_byte_nonempty b : esc_byte b ≠ [].
Proof. unfold esc_byte, percent_lower. destruct (Host.nonEscapedChar_class b); discriminate. Qed.

Lemma utf8_encode_nonempty cp : Host.utf8_encode cp ≠ [].
Proof.
  unfold Host.utf8_encode.
  case_ltb; discriminate.
Qed.

Lemma decodeURIComponent_utf8 cps :
  Forall is_scalar cps →
  Host.decodeURIComponent (flat_map esc_byte (flat_map Host.utf8_encode cps))
  = Ok (flat_map Host.utf16_encode cps).
Proof.
  induction 1 as [|cp cps Hcp _ IH].
  - simpl. apply Host.decodeURIComponent_equation_1.
  - cbn [flat_map]. rewrite flat_map_app.
    rewrite (decodeURIComponent_token _ _ (Host.utf16_encode cp)).
    + rewrite IH. reflexivity.
    + pose proof (utf8_encode_nonempty cp) as Hne.
      destruct (Host.utf8_encode cp) as [|b bs]; [done|].
      cbn [flat_map]. pose proof (esc_byte_nonempty b).
      destruct (esc_byte b); [done | discriminate].
    + by apply decode_step_scalar.
Qed.

(** ** The byte order mark *)

Lemma utf8ToStr_strip_no_BOM data :
  ¬ (data !! 0 = Some 0xEF%Z ∧ data !! 1 = Some 0xBB%Z ∧ data !! 2 = Some 0xBF%Z) →
  utf8ToStr_strip data = data.
Proof.
  intros Hno. unfold utf8ToStr_strip.
  repeat case_bool_decide; simpl; try reflexivity. tauto.
Qed.

Lemma utf8ToStr_strip_BOM bytes : utf8ToStr_strip (BOM ++ bytes) = bytes.
Proof.
  unfold utf8ToStr_strip, Host.subarray. simpl.
  rewrite Nat.sub_0_r. apply firstn_all.
Qed.

Lemma utf8ToStr_strip_short data : length data < 3 → utf8ToStr_strip data = data.
Proof.
  intros Hlen. apply utf8ToStr_strip_no_BOM. intros (_ & _ & H2).
  apply lookup_lt_Some in H2. lia.
Qed.

Lemma utf8ToStr_strip_utf8 cps :
  Forall is_scalar cps → head cps ≠ Some 0xFEFF%Z →
  utf8ToStr_strip (flat_map Host.utf8_encode cps) = flat_map Host.utf8_encode cps.
Proof.
  intros Hcps Hhead. apply utf8ToStr_strip_no_BOM.
  destruct Hcps as [|cp cps Hcp _]; [intros ([=] & _)|].
  assert (cp ≠ 0xFEFF%Z) as Hne by (intros ->; done).
  cbn [flat_map]. unfold is_scalar in Hcp.
  generalize (flat_map Host.utf8_encode cps). intros rest. unfold Host.utf8_encode.
  case_ltb; simpl; intros (Hb0 & Hb1 & Hb2); injection Hb0 as Hb0;
    try (injection Hb1 as Hb1; injection Hb2 as Hb2);
    euclid.
Qed.

(** ** The two functions as a whole *)

Lemma utf8ToStr_eq w data : utf8ToStr w data = utf8ToStr_decode w (utf8ToStr_strip data).
Proof. reflexivity. Qed.

Lemma strToUtf8_spec w s :
  is_string s →
  strToUtf8 w s =
  match code_points s with
  | Some cps => Ok (flat_map Host.utf8_encode cps)
  | None => Throw URIError
  end.
Proof.
  intros Hs. pose proof (encodeURIComponent_spec (length s) s (le_n _) Hs) as Henc.
  pose proof (code_points_spec (length s) s) as Hcps.
  unfold strToUtf8. destruct (code_points s) as [cps|]; [|rewrite Henc; reflexivity].
  destruct Henc as (pcStr & -> & Hform).
  destruct (Hcps cps) as (Hscalar & _); [done..|].
  assert (is_bytes (flat_map Host.utf8_encode cps)) as Hbytes.
  { clear -Hscalar. induction Hscalar as [|cp cps Hcp _ IH]; [constructor|].
    cbn [flat_map]. apply Forall_app. split; [|done].
    apply utf8_encode_bytes, is_scalar_range, Hcp. }
  cbn [mbind result_bind].
  rewrite (unescape_pct_form _ _ Hform), (strToUtf8_unescape_pct_form _ _ Hform).
  destruct (Host.window_unescape w); cbn;
    rewrite strToUtf8_bytes_spec by done; reflexivity.
Qed.

Lemma strToUtf8_host_independent w1 w2 s :
  is_string s → strToUtf8 w1 s = strToUtf8 w2 s.
Proof. intros Hs. rewrite !strToUtf8_spec by done. reflexivity. Qed.

Lemma is_bytes_strip data : is_bytes data → is_bytes (utf8ToStr_strip data).
Proof.
  intros Hdata. unfold utf8ToStr_strip, Host.subarray.
  destruct (_ && _); [|done]. by apply Forall_take, Forall_drop.
Qed.

Lemma utf8ToStr_decode_spec w uint8 :
  Host.window_escape w = Host.Builtin → is_bytes uint8 →
  utf8ToStr_decode w uint8 = Host.decodeURIComponent (flat_map esc_byte uint8).
Proof.
  intros Hw Hbytes. unfold utf8ToStr_decode. rewrite Hw. cbn.
  rewrite stringFromCharCodes_bytes by done.
  rewrite (utf8ToStr_escape_loop_spec uint8 Hbytes (length uint8)) by lia.
  reflexivity.
Qed.

Lemma utf8ToStr_decode_unavailable w uint8 :
  Host.window_escape w ≠ Host.Builtin →
  utf8ToStr_decode w uint8 = Throw ReferenceError ∨
  utf8ToStr_decode w uint8 = Throw TypeError.
Proof.
  intros Hw. unfold utf8ToStr_decode.
  destruct (Host.window_escape w); [left | right | done]; reflexivity.
Qed.

Lemma decode_step_error s e : Host.decode_step s = Throw e → e = URIError.
Proof. unfold Host.decode_step. intros H. repeat case_match; congruence. Qed.

Lemma decodeURIComponent_error n : ∀ s e,
  length s <= n → Host.decodeURIComponent s = Throw e → e = URIError.
Proof.
  induction n as [|n IH]; intros [|C rest] e Hlen; simpl in Hlen; try lia;
    rewrite ?Host.decodeURIComponent_equation_1; try discriminate.
  rewrite decodeURIComponent_cons.
  destruct (Host.decode_step (C :: rest)) as [[units consumed]|e'] eqn:Hstep.
  - destruct (Host.decodeURIComponent (drop (consumed - 1) rest)) as [R|e'] eqn:Hrec;
      [discriminate|].
    intros [= <-]. eapply IH; [|exact Hrec]. rewrite length_drop. lia.
  - intros [= <-]. by apply decode_step_error in Hstep.
Qed.

Lemma no_BOM_prefix (bytes : list Z) :
  (∀ rest, bytes ≠ BOM ++ rest) → utf8ToStr_strip bytes = bytes.
Proof.
  intros Hno. apply utf8ToStr_strip_no_BOM. intros (H0 & H1 & H2).
  destruct bytes as [|a [|b [|c rest]]]; try discriminate.
  injection H0 as ->. injection H1 as ->. injection H2 as ->.
  by apply (Hno rest).
Qed.

(** ** The two implementations of [escape] before [decodeURIComponent] *)

Lemma octet_form_app s1 b1 s2 b2 :
  octet_form s1 b1 → octet_form s2 b2 → octet_form (s1 ++ s2) (b1 ++ b2).
Proof. induction 1; intros; simpl; try constructor; auto. Qed.

Lemma octet_form_flat_map (f : Z → jsstring) bytes :
  Forall (fun b => octet_form (f b) [b]) bytes → octet_form (flat_map f bytes) bytes.
Proof.
  induction 1 as [|b bytes Hb _ IH]; [constructor|].
  cbn [flat_map]. by apply (octet_form_app _ [b]).
Qed.

Lemma octet_form_percent (hex : Z → Z) b :
  (0 <= b < 256)%Z →
  (∀ d, (0 <= d < 16)%Z →
     Host.is_hex_digit (hex d) = true ∧ Host.hex_digit_value (hex d) = d) →
  octet_form [Host.char_percent; hex (b / 16)%Z; hex (b mod 16)%Z] [b].
Proof.
  intros Hb Hhex.
  destruct (Hhex (b / 16)%Z) as [Hh1 Hv1]; [euclid|].
  destruct (Hhex (b mod 16)%Z) as [Hh2 Hv2]; [euclid|].
  replace b with (16 * Host.hex_digit_value (hex (b / 16))
                  + Host.hex_digit_value (hex (b mod 16)))%Z at 3
    by (rewrite Hv1, Hv2; euclid).
  constructor; [done..|constructor].
Qed.

Lemma octet_form_esc_byte bytes : is_bytes bytes → octet_form (flat_map esc_byte bytes) bytes.
Proof.
  intros Hbytes. apply octet_form_flat_map.
  eapply Forall_impl; [exact Hbytes|]. intros b Hb. unfold is_byte in Hb.
  unfold esc_byte. destruct (Host.nonEscapedChar_class b) eqn:Hclass.
  - apply nonEscapedChar_class_ascii in Hclass.
    constructor; [lia | unfold Host.char_percent; lia | constructor].
  - apply octet_form_percent; [done|]. intros d Hd.
    destruct (hex_lower_digit d Hd) as (_ & ? & ?). done.
Qed.

Lemma escape_char_unescaped c :
  Host.is_alnum c || bool_decide (c ∈ [64; 42; 95; 43; 45; 46; 47]%Z) = true →
  (42 <= c < 128)%Z.
Proof.
  unfold Host.is_alnum, Host.in_range. intros [Hc|Hc]%orb_prop.
  - case_tests; simpl in *; try discriminate; lia.
  - apply bool_decide_eq_true_1 in Hc.
    repeat (apply elem_of_cons in Hc as [->|Hc]; [lia|]).
    by apply elem_of_nil in Hc.
Qed.

Lemma octet_form_escape bytes : is_bytes bytes → octet_form (Host.escape bytes) bytes.
Proof.
  intros Hbytes. apply octet_form_flat_map.
  eapply Forall_impl; [exact Hbytes|]. intros b Hb. unfold is_byte in Hb.
  unfold Host.escape_char. destruct (_ || _) eqn:Hclass.
  - apply escape_char_unescaped in Hclass.
    constructor; [lia | unfold Host.char_percent; lia | constructor].
  - destruct (Z.ltb_spec b 256); [|lia].
    apply octet_form_percent; [done|]. intros d Hd.
    destruct (hex_upper_digit d Hd) as (? & ? & _). done.
Qed.

Lemma continuation_octets_form s bs :
  octet_form s bs →
  ∀ j,
    match conts_of j bs with
    | Some conts =>
        Host.continuation_octets j s = Some conts ∧
        octet_form (drop (3 * j) s) (drop j bs) ∧ j <= length bs
    | None => Host.continuation_octets j s = None
    end.
Proof.
  induction 1 as [|c s bs Hc Hpct Hform _|h1 h2 s bs Hh1 Hh2 Hform IH]; intros [|j];
    try (split; [reflexivity | split; [simpl; by constructor | simpl; lia]]);
    cbn [conts_of Host.continuation_octets].
  - reflexivity.
  - unfold Host.in_range. destruct (Z.leb_spec 128 c); [lia|]. cbn [andb].
    unfold Host.percent_octet. destruct s as [|? [|? ?]]; try reflexivity.
    destruct (Z.eqb_spec c Host.char_percent); [done | reflexivity].
  - cbn [Host.percent_octet]. rewrite Z.eqb_refl, Hh1, Hh2. cbn [andb].
    destruct (Host.in_range 128 191 _); [|reflexivity].
    change (drop 3 (?a :: ?b :: ?c :: ?l)) with l.
    specialize (IH j). destruct (conts_of j bs) as [conts|].
    + destruct IH as (-> & IHform & IHlen). split; [reflexivity|]. split.
      * replace (3 * S j) with (S (S (S (3 * j)))) by lia. exact IHform.
      * simpl. lia.
    + rewrite IH. reflexivity.
Qed.

Lemma decode_step_form C rest bs :
  octet_form (C :: rest) bs →
  match decode_octets_step bs with
  | Ok (units, k) =>
      ∃ consumed,
        Host.decode_step (C :: rest) = Ok (units, consumed) ∧
        octet_form (drop (consumed - 1) rest) (drop k bs) ∧ 0 < k <= length bs
  | Throw e => Host.decode_step (C :: rest) = Throw e
  end.
Proof.
  inversion 1 as [|c s bs' Hc Hpct Hform|h1 h2 s bs' Hh1 Hh2 Hform]; subst.
  - unfold decode_octets_step, Host.leading_ones.
    destruct (Z.ltb_spec C 128); [|lia]. cbn.
    exists 1. unfold Host.decode_step.
    destruct (Z.eqb_spec C Host.char_percent); [done|]. cbn.
    split; [reflexivity|]. split; [exact Hform | lia].
  - unfold decode_octets_step, Host.decode_step.
    cbn [Host.percent_octet]. rewrite Z.eqb_refl, Hh1, Hh2. cbn [andb negb].
    set (B := (16 * Host.hex_digit_value h1 + Host.hex_digit_value h2)%Z).
    cbv zeta. destruct (decide (Host.leading_ones B = 0)) as [Hz|Hnz].
    { exists 3. split; [reflexivity|]. split; [exact Hform | simpl; lia]. }
    destruct (decide (Host.leading_ones B = 1 ∨ 4 < Host.leading_ones B)) as [|Hn];
      [reflexivity|].
    change (drop 3 (?a :: ?b :: ?c :: ?l)) with l.
    pose proof (continuation_octets_form s bs' Hform (Host.leading_ones B - 1)) as Hconts.
    destruct (conts_of (Host.leading_ones B - 1) bs') as [conts|];
      [|rewrite Hconts; reflexivity].
    destruct Hconts as (-> & Hrest & Hlen).
    destruct (Host.utf8_valid _ _); [|reflexivity].
    exists (3 * Host.leading_ones B). split; [reflexivity|]. split.
    + replace (3 * Host.leading_ones B - 1)
        with (S (S (3 * (Host.leading_ones B - 1)))) by lia.
      replace (Host.leading_ones B) with (S (Host.leading_ones B - 1)) at 2 by lia.
      exact Hrest.
    + simpl. lia.
Qed.

Lemma decodeURIComponent_form n : ∀ bs s1 s2,
  length bs <= n → octet_form s1 bs → octet_form s2 bs →
  Host.decodeURIComponent s1 = Host.decodeURIComponent s2.
Proof.
  induction n as [|n IH]; intros bs s1 s2 Hlen H1 H2.
  - destruct bs; [|simpl in Hlen; lia]. inversion H1. inversion H2. reflexivity.
  - destruct s1 as [|C1 r1]; [inversion H1; subst; inversion H2; reflexivity|].
    destruct s2 as [|C2 r2]; [inversion H2; subst; inversion H1|].
    rewrite !decodeURIComponent_cons.
    pose proof (decode_step_form C1 r1 bs H1) as Hs1.
    pose proof (decode_step_form C2 r2 bs H2) as Hs2.
    destruct (decode_octets_step bs) as [[units k]|e].
    + destruct Hs1 as (c1 & -> & Hf1 & Hk). destruct Hs2 as (c2 & -> & Hf2 & _).
      rewrite (IH (drop k bs) _ _ ltac:(rewrite length_drop; lia) Hf1 Hf2).
      reflexivity.
    + rewrite Hs1, Hs2. reflexivity.
Qed.

Lemma utf8ToStr_paths_agree uint8 :
  is_bytes uint8 → utf8ToStr_native uint8 = utf8ToStr_fallback uint8.
Proof.
  intros Hbytes. unfold utf8ToStr_native, utf8ToStr_fallback.
  rewrite stringFromCharCodes_bytes by done.
  rewrite (utf8ToStr_escape_loop_spec uint8 Hbytes (length uint8)) by lia.
  cbn. apply (decodeURIComponent_form (length uint8) uint8); [lia|..].
  - by apply octet_form_escape.
  - by apply octet_form_esc_byte.
Qed.

Lemma utf8ToStr_escape_available w data :
  Host.window_escape w = Host.Builtin →
  utf8ToStr w data = utf8ToStr_fallback (utf8ToStr_strip data).
Proof. intros Hw. unfold utf8ToStr, utf8ToStr_fallback. rewrite Hw. reflexivity. Qed.

(** ** The scenarios of the specification *)

Example strToUtf8_e_acute :
  strToUtf8 browser [0xE9%Z] = Ok [0xC3; 0xA9]%Z ∧
  strToUtf8 bare_host [0xE9%Z] = Ok [0xC3; 0xA9]%Z.
Proof. split; reflexivity. Qed.

Example utf8ToStr_e_acute : utf8ToStr browser [0xC3; 0xA9]%Z = Ok [0xE9%Z].
Proof. reflexivity. Qed.

Example empty_inputs :
  strToUtf8 browser [] = Ok [] ∧ strToLeUtf16 [] = [] ∧
  utf8ToStr browser [] = Ok [] ∧ leUtf16ToStr [] = [].
Proof. repeat split; reflexivity. Qed.

(** The loop written in place of [unescape] is not [unescape] on every
    string: on [%uXXXX] it hands the [u] to [parseInt] too and appends
    U+0000. [encodeURIComponent] never writes that form, so [strToUtf8] does
    not see the difference. *)
Example unescape_fallback_percent_u :
  strToUtf8_unescape_loop (js "%u0041") 0 [] = [0%Z] ∧
  Host.unescape (js "%u0041") = js "A".
Proof. split; reflexivity. Qed.

(** ** More on the UTF-16 functions *)

Lemma le_units_facts n : ∀ bytes,
  length bytes <= n → is_bytes bytes →
  length (le_units bytes) = (length bytes + 1) / 2 ∧
  is_string (le_units bytes) ∧
  ∀ i lo hi, bytes !! (2 * i) = Some lo → bytes !! (2 * i + 1) = Some hi →
             le_units bytes !! i = Some (256 * hi + lo)%Z.
Proof.
  induction n as [|n IH]; intros [|lo [|hi bytes]] Hlen Hbytes; simpl in Hlen; try lia;
    try (split; [reflexivity|]; split; [constructor|]; intros [|i] ? ?; discriminate).
  - apply Forall_cons in Hbytes as [Hlo _].
    rewrite le_units_single by done. split; [reflexivity|].
    split; [constructor; [unfold is_byte, is_code_unit in *; lia | constructor]|].
    intros [|i] lo' hi' H0 H1; simpl in H1; discriminate.
  - apply Forall_cons in Hbytes as [Hlo Hbytes]. apply Forall_cons in Hbytes as [Hhi Hbytes].
    destruct (IH bytes) as (IHlen & IHstr & IHlook); [lia|done|].
    destruct (le_pair_unit lo hi Hlo Hhi) as [Hunit Hpair].
    cbn [le_units]. split; [|split].
    + cbn [length]. rewrite IHlen.
      replace (S (S (length bytes)) + 1) with (length bytes + 1 + 1 * 2) by lia.
      rewrite Nat.div_add by lia. lia.
    + constructor; assumption.
    + intros [|i] lo' hi' H0 H1.
      * simpl in H0, H1. injection H0 as <-. injection H1 as <-.
        simpl. f_equal.
        unfold is_byte in *. unfold Host.shift_left, Host.ToInt32.
        rewrite (wrap32_small hi) by lia.
        rewrite (Z.shiftl_mul_pow2 _ 8) by lia. change (2 ^ 8)%Z with 256%Z.
        rewrite wrap32_small by lia. rewrite Z.mod_small by lia. lia.
      * replace (2 * S i) with (S (S (2 * i))) in H0 by lia.
        replace (2 * S i + 1) with (S (S (2 * i + 1))) in H1 by lia.
        simpl in H0, H1. simpl. by apply IHlook.
Qed.

(** ** More on code points *)

Lemma is_bytes_utf8 cps : Forall is_scalar cps → is_bytes (flat_map Host.utf8_encode cps).
Proof.
  induction 1 as [|cp cps Hcp _ IH]; [constructor|].
  cbn [flat_map]. apply Forall_app. split; [|done].
  apply utf8_encode_bytes, is_scalar_range, Hcp.
Qed.

Lemma code_points_not_surrogate c rest :
  (0 <= c < 0xD800)%Z ∨ (0xE000 <= c)%Z →
  code_points (c :: rest) = (fun cps => c :: cps) <$> code_points rest.
Proof.
  intros Hc. cbn [code_points].
  pose proof (surrogate_tests c) as [Hlead Htrail].
  destruct (Host.is_trail_surrogate c); [lia|].
  destruct (Host.is_lead_surrogate c); [lia|]. reflexivity.
Qed.

Lemma code_points_ascii t :
  is_ascii t →
  code_points t = Some t ∧ flat_map Host.utf8_encode t = t ∧
  flat_map Host.utf16_encode t = t ∧ Forall is_scalar t ∧ is_string t.
Proof.
  induction 1 as [|c t Hc _ (IH1 & IH2 & IH3 & IH4 & IH5)].
  - repeat split; constructor.
  - rewrite code_points_not_surrogate, IH1 by lia. cbn [flat_map].
    rewrite IH2, IH3. unfold Host.utf8_encode, Host.utf16_encode.
    destruct (Z.ltb_spec c 128); [|lia]. destruct (Z.ltb_spec c 65536); [|lia].
    repeat split; try constructor; try done; unfold is_scalar, is_code_unit; lia.
Qed.

Lemma code_points_app n : ∀ s t cs ct,
  length s <= n → code_points s = Some cs → code_points t = Some ct →
  code_points (s ++ t) = Some (cs ++ ct).
Proof.
  induction n as [|n IH]; intros [|c s] t cs ct Hlen Hs Ht; simpl in Hlen; try lia;
    try (injection Hs as <-; exact Ht).
  cbn [code_points app] in Hs |- *.
  destruct (Host.is_trail_surrogate c); [discriminate|].
  destruct (Host.is_lead_surrogate c).
  - destruct s as [|d s]; [discriminate|]. cbn [app].
    destruct (Host.is_trail_surrogate d); [|discriminate].
    destruct (code_points s) as [cs'|] eqn:Hs'; [|discriminate].
    injection Hs as <-.
    rewrite (IH s t cs' ct) by (done || simpl in Hlen; lia). reflexivity.
  - destruct (code_points s) as [cs'|] eqn:Hs'; [|discriminate].
    injection Hs as <-.
    rewrite (IH s t cs' ct) by (done || lia). reflexivity.
Qed.

Lemma code_points_utf16 cps :
  Forall is_scalar cps →
  code_points (flat_map Host.utf16_encode cps) = Some cps ∧
  is_string (flat_map Host.utf16_encode cps).
Proof.
  induction 1 as [|cp cps Hcp _ [IH1 IH2]]; [split; [reflexivity | constructor]|].
  unfold is_scalar in Hcp. cbn [flat_map]. unfold Host.utf16_encode at 1 3.
  destruct (Z.ltb_spec cp 65536).
  - cbn [app]. rewrite code_points_not_surrogate, IH1 by lia.
    split; [reflexivity|]. constructor; [unfold is_code_unit; lia | done].
  - cbn [app code_points].
    set (hi := (55296 + (cp - 65536) / 1024)%Z).
    set (lo := (56320 + (cp - 65536) mod 1024)%Z).
    assert (55296 <= hi <= 56319)%Z as Hhi by (subst hi; euclid).
    assert (56320 <= lo <= 57343)%Z as Hlo by (subst lo; euclid).
    pose proof (surrogate_tests hi) as [Hlead Htrail].
    pose proof (surrogate_tests lo) as [_ Htrail'].
    destruct (Host.is_trail_surrogate hi); [lia|].
    destruct (Host.is_lead_surrogate hi); [|lia].
    destruct (Host.is_trail_surrogate lo); [|lia].
    rewrite IH1. split.
    + cbn. do 2 f_equal. unfold Host.surrogate_pair_to_code_point. subst hi lo. euclid.
    + constructor; [unfold is_code_unit; lia|].
      constructor; [unfold is_code_unit; lia | done].
Qed.

Lemma utf8_length_bounds n : ∀ t cps,
  length t <= n → is_string t → code_points t = Some cps →
  length t <= length (flat_map Host.utf8_encode cps) <= 3 * length t.
Proof.
  induction n as [|n IH]; intros [|c t] cps Hlen Ht Hcps; simpl in Hlen; try lia;
    try (injection Hcps as <-; simpl; lia).
  apply Forall_cons in Ht as [Hc Ht]. unfold is_code_unit in Hc.
  cbn [code_points] in Hcps.
  destruct (Host.is_trail_surrogate c) eqn:Htrail; [discriminate|].
  destruct (Host.is_lead_surrogate c) eqn:Hlead.
  - destruct t as [|d t]; [discriminate|].
    destruct (Host.is_trail_surrogate d) eqn:Hd; [|discriminate].
    apply Forall_cons in Ht as [_ Ht].
    destruct (code_points t) as [cps'|] eqn:Hrest; [|discriminate].
    injection Hcps as <-.
    pose proof (IH t cps' ltac:(simpl in Hlen; lia) Ht Hrest) as Hb.
    destruct (utf16_encode_pair c d Hlead Hd) as (_ & Hbig & _).
    cbn [flat_map length]. rewrite length_app.
    set (m := length (flat_map Host.utf8_encode cps')) in *.
    unfold Host.utf8_encode. case_ltb; try lia; simpl; lia.
  - destruct (code_points t) as [cps'|] eqn:Hrest; [|discriminate].
    injection Hcps as <-.
    pose proof (IH t cps' ltac:(lia) Ht Hrest) as Hb.
    cbn [flat_map length]. rewrite length_app.
    set (m := length (flat_map Host.utf8_encode cps')) in *.
    unfold Host.utf8_encode. case_ltb; try lia; simpl; lia.
Qed.

(** ** What [decodeURIComponent] accepts *)

Lemma conts_of_spec j : ∀ rest conts,
  conts_of j rest = Some conts →
  conts = take j rest ∧ length conts = j ∧
  Forall (fun b => (0x80 <= b <= 0xBF)%Z) conts.
Proof.
  induction j as [|j IH]; intros rest conts Hconts; cbn [conts_of] in Hconts.
  - injection Hconts as <-. repeat split. constructor.
  - destruct rest as [|b rest]; [discriminate|].
    destruct (Host.in_range 128 191 b) eqn:Hb; [|discriminate].
    destruct (conts_of j rest) as [conts'|] eqn:Hrest; [|discriminate].
    injection Hconts as <-. destruct (IH rest conts' Hrest) as (-> & Hlen & Hall).
    split; [reflexivity|]. split; [simpl; lia|].
    constructor; [|done]. unfold Host.in_range in Hb.
    apply andb_true_iff in Hb as [?%Z.leb_le ?%Z.leb_le]. lia.
Qed.

Lemma leading_ones_range B :
  match Host.leading_ones B with
  | 0 => (B < 0x80)%Z
  | 1 => (0x80 <= B < 0xC0)%Z
  | 2 => (0xC0 <= B < 0xE0)%Z
  | 3 => (0xE0 <= B < 0xF0)%Z
  | 4 => (0xF0 <= B < 0xF8)%Z
  | _ => (0xF8 <= B)%Z
  end.
Proof. unfold Host.leading_ones. case_ltb; lia. Qed.

Lemma decode_octets_step_valid B rest units k :
  is_byte B →
  decode_octets_step (B :: rest) = Ok (units, k) →
  ∃ cp, is_scalar cp ∧ take k (B :: rest) = Host.utf8_encode cp ∧
        units = Host.utf16_encode cp.
Proof.
  unfold is_byte. intros HB. unfold decode_octets_step.
  pose proof (leading_ones_range B) as Hrange.
  destruct (decide (Host.leading_ones B = 0)) as [Hz|Hnz].
  { intros [= <- <-]. rewrite Hz in Hrange. exists B.
    unfold is_scalar, Host.utf8_encode, Host.utf16_encode.
    destruct (Z.ltb_spec B 128); [|lia]. destruct (Z.ltb_spec B 65536); [|lia].
    split; [lia|]. split; reflexivity. }
  destruct (decide _) as [|Hn]; [discriminate|].
  destruct (conts_of (Host.leading_ones B - 1) rest) as [conts|] eqn:Hconts;
    [|discriminate].
  destruct (conts_of_spec _ _ _ Hconts) as (Htake & Hlen & Hall).
  cbv zeta. destruct (Host.utf8_valid _ _) eqn:Hvalid; [|discriminate].
  intros [= <- <-]. exists (Host.utf8_value B conts).
  assert (take (Host.leading_ones B) (B :: rest) = B :: conts) as ->.
  { replace (Host.leading_ones B) with (S (Host.leading_ones B - 1)) at 1 by lia.
    cbn [take]. by rewrite <- Htake. }
  split; [|split; [|reflexivity]];
    destruct (Host.leading_ones B) as [|[|[|[|[|?]]]]]; try lia;
    destruct conts as [|b1 [|b2 [|b3 [|? ?]]]]; simpl in Hlen; try lia;
    repeat match goal with
    | H : Forall _ (_ :: _) |- _ => apply Forall_cons in H as [? H]
    end;
    unfold Host.utf8_valid, Host.in_range in Hvalid;
    unfold Host.utf8_value in *; cbn [length fold_left] in *;
    repeat match goal with
    | H : _ && _ = true |- _ => apply andb_true_iff in H as [? ?]
    | H : negb _ = true |- _ => apply negb_true_iff in H
    | H : _ && _ = false |- _ => apply andb_false_iff in H
    | H : (_ <=? _)%Z = true |- _ => apply Z.leb_le in H
    end;
    repeat match goal with
    | H : _ ∨ _ |- _ => destruct H
    | H : (_ <=? _)%Z = false |- _ => apply Z.leb_gt in H
    end;
    try (unfold is_scalar; lia);
    unfold Host.utf8_encode; case_ltb; try lia;
    repeat f_equal; euclid.
Qed.

Lemma octet_form_nil_inv s : octet_form s [] → s = [].
Proof. inversion 1. reflexivity. Qed.

Lemma decodeURIComponent_valid n : ∀ bs s t,
  length bs <= n → is_bytes bs → octet_form s bs →
  Host.decodeURIComponent s = Ok t →
  ∃ cps, Forall is_scalar cps ∧ bs = flat_map Host.utf8_encode cps ∧
         t = flat_map Host.utf16_encode cps.
Proof.
  induction n as [|n IH]; intros bs s t Hlen Hbytes Hform Hdec.
  - destruct bs; [|simpl in Hlen; lia]. apply octet_form_nil_inv in Hform as ->.
    rewrite Host.decodeURIComponent_equation_1 in Hdec. injection Hdec as <-.
    exists []. repeat split. constructor.
  - destruct s as [|C rest].
    { inversion Hform; subst.
      rewrite Host.decodeURIComponent_equation_1 in Hdec. injection Hdec as <-.
      exists []. repeat split. constructor. }
    rewrite decodeURIComponent_cons in Hdec.
    pose proof (decode_step_form C rest bs Hform) as Hstep.
    destruct (decode_octets_step bs) as [[units k]|e] eqn:Hoct;
      [|rewrite Hstep in Hdec; discriminate].
    destruct Hstep as (consumed & Hstep & Hform' & Hk). rewrite Hstep in Hdec.
    destruct (Host.decodeURIComponent (drop (consumed - 1) rest)) as [t'|] eqn:Hrec;
      [|discriminate].
    injection Hdec as <-.
    destruct bs as [|B bs']; [simpl in Hk; lia|].
    destruct (decode_octets_step_valid B bs' units k) as (cp & Hcp & Htake & ->);
      [by apply Forall_cons in Hbytes as [? _] | done |].
    destruct (IH (drop k (B :: bs')) (drop (consumed - 1) rest) t') as (cps & Hcps & Hbs & ->);
      [rewrite length_drop; simpl in *; lia | by apply Forall_drop | done..|].
    exists (cp :: cps). split; [by constructor|]. split; [|reflexivity].
    cbn [flat_map]. rewrite <- Htake, <- Hbs. symmetry. apply take_drop.
Qed.

Lemma utf8_encode_allowed cp :
  is_scalar cp →
  Forall (fun b => b ≠ 0xC0%Z ∧ b ≠ 0xC1%Z ∧ (b < 0xF5)%Z) (Host.utf8_encode cp).
Proof.
  unfold is_scalar. intros Hcp. unfold Host.utf8_encode.
  case_ltb; repeat constructor; euclid.
Qed.

Lemma utf8ToStr_Ok_inv w data t :
  is_bytes data → Host.window_escape w = Host.Builtin →
  utf8ToStr w data = Ok t →
  ∃ cps, Forall is_scalar cps ∧
         utf8ToStr_strip data = flat_map Host.utf8_encode cps ∧
         t = flat_map Host.utf16_encode cps.
Proof.
  intros Hdata Hw. pose proof (is_bytes_strip data Hdata) as Hstrip.
  rewrite utf8ToStr_eq, utf8ToStr_decode_spec by done.
  apply (decodeURIComponent_valid (length (utf8ToStr_strip data))); [lia|done|].
  by apply octet_form_esc_byte.
Qed.

(** ** More on [intToHex] *)

Lemma intToHex_unit c :
  (256 <= c < 65536)%Z →
  intToHex c 4
  = Ok [Host.hex_lower (c / 4096); Host.hex_lower (c / 256 mod 16);
        Host.hex_lower (c / 16 mod 16); Host.hex_lower (c mod 16)].
Proof.
  intros Hc.
  assert (Host.hex_digits c
          = (if decide (c < 4096)%Z then [] else [Host.hex_lower (c / 4096)])
            ++ [Host.hex_lower (c / 256 mod 16); Host.hex_lower (c / 16 mod 16);
                Host.hex_lower (c mod 16)]) as Hdigits.
  { rewrite (hex_digits_eq c). destruct (decide (c < 16)%Z); [lia|].
    rewrite (hex_digits_eq (c / 16)). destruct (decide (c / 16 < 16)%Z); [euclid|].
    rewrite (hex_digits_eq (c / 16 / 16)).
    replace (c / 16 / 16)%Z with (c / 256)%Z by euclid.
    destruct (decide (c / 256 < 16)%Z); destruct (decide (c < 4096)%Z); try euclid.
    - simpl. do 2 f_equal. euclid.
    - rewrite (hex_digits_eq (c / 256 / 16)).
      replace (c / 256 / 16)%Z with (c / 4096)%Z by euclid.
      destruct (decide (c / 4096 < 16)%Z); [|euclid]. reflexivity. }
  rewrite intToHex_spec; [|lia|rewrite max_string_length_value; lia].
  rewrite Hdigits. destruct (decide (c < 4096)%Z); simpl; [|reflexivity].
  do 3 f_equal. rewrite Z.div_small by lia. reflexivity.
Qed.

(** ** More on the fallback for [unescape] *)

Lemma strToUtf8_unescape_body_percent pre rest utf8Str :
  head rest ≠ Some Host.char_u →
  (∀ h1 h2 r, rest = h1 :: h2 :: r →
     Host.is_hex_digit h1 && Host.is_hex_digit h2 = false) →
  strToUtf8_unescape_body (pre ++ Host.char_percent :: rest) (length pre) utf8Str
  = (length pre, utf8Str ++ [Host.char_percent]).
Proof.
  intros Hu Hhex. unfold strToUtf8_unescape_body.
  rewrite list_lookup_middle by done.
  rewrite bool_decide_eq_true_2 by done.
  assert (∀ k, (pre ++ Host.char_percent :: rest) !! (length pre + S k) = rest !! k) as Hlk.
  { intros k. rewrite lookup_app_r by lia.
    replace (length pre + S k - length pre) with (S k) by lia. reflexivity. }
  rewrite (Hlk 0), (Hlk 1).
  rewrite (bool_decide_eq_false_2 (rest !! 0 = Some Host.char_u))
    by (destruct rest; exact Hu).
  rewrite andb_false_r. cbn [andb].
  assert ((Z.of_nat (length pre)
             <=? Z.of_nat (length (pre ++ Host.char_percent :: rest)) - 3)%Z
          && Host.isHexChar_test (rest !! 0) && Host.isHexChar_test (rest !! 1) = false)
    as ->.
  { rewrite length_app. destruct rest as [|h1 [|h2 r]]; cbn [length].
    - destruct (Z.leb_spec (Z.of_nat (length pre)) (Z.of_nat (length pre + 1) - 3));
        [lia | reflexivity].
    - destruct (Z.leb_spec (Z.of_nat (length pre)) (Z.of_nat (length pre + 2) - 3));
        [lia | reflexivity].
    - cbn. rewrite <- andb_assoc, (Hhex h1 h2 r eq_refl). apply andb_false_r. }
  cbn. rewrite list_lookup_middle by done. reflexivity.
Qed.

Lemma strToUtf8_unescape_body_u pre h1 h2 h3 h4 rest utf8Str :
  Host.is_hex_digit h1 = true → Host.is_hex_digit h2 = true →
  Host.is_hex_digit h3 = true → Host.is_hex_digit h4 = true →
  strToUtf8_unescape_body
    (pre ++ Host.char_percent :: Host.char_u :: h1 :: h2 :: h3 :: h4 :: rest)
    (length pre) utf8Str
  = (length pre + 5, utf8Str ++ [0%Z]).
Proof.
  intros Hh1 Hh2 Hh3 Hh4. unfold strToUtf8_unescape_body.
  rewrite list_lookup_middle by done.
  rewrite bool_decide_eq_true_2 by done.
  assert (∀ k x, (Host.char_u :: h1 :: h2 :: h3 :: h4 :: rest) !! k = x →
            (pre ++ Host.char_percent :: Host.char_u :: h1 :: h2 :: h3 :: h4 :: rest)
              !! (length pre + S k) = x) as Hlk.
  { intros k x <-. rewrite lookup_app_r by lia.
    replace (length pre + S k - length pre) with (S k) by lia. reflexivity. }
  rewrite (Hlk 0 (Some Host.char_u)), (Hlk 1 (Some h1)), (Hlk 2 (Some h2)),
    (Hlk 3 (Some h3)), (Hlk 4 (Some h4)) by reflexivity.
  rewrite bool_decide_eq_true_2 by done. cbn [Host.isHexChar_test].
  rewrite Hh1, Hh2, Hh3, Hh4, !andb_true_r.
  destruct (Z.leb_spec (Z.of_nat (length pre))
              (Z.of_nat (length (pre ++ Host.char_percent :: Host.char_u
                                   :: h1 :: h2 :: h3 :: h4 :: rest)) - 6)) as [_|Hlt];
    [|rewrite length_app in Hlt; simpl in Hlt; lia].
  cbn. do 3 f_equal.
  unfold Host.substring.
  rewrite Nat.min_l, Nat.max_r by lia.
  replace (length pre + 6 - (length pre + 1)) with 5 by lia.
  replace (pre ++ Host.char_percent :: Host.char_u :: h1 :: h2 :: h3 :: h4 :: rest)
    with ((pre ++ [Host.char_percent]) ++ Host.char_u :: h1 :: h2 :: h3 :: h4 :: rest)
    by (rewrite <- app_assoc; reflexivity).
  replace (length pre + 1) with (length (pre ++ [Host.char_percent]))
    by (rewrite length_app; reflexivity).
  rewrite drop_app_length. reflexivity.
Qed.

Lemma strToUtf8_unescape_loop_general n : ∀ s pre utf8Str,
  length s <= n → no_percent_u s →
  strToUtf8_unescape_loop (pre ++ s) (length pre) utf8Str = utf8Str ++ Host.unescape s.
Proof.
  assert (∀ pre utf8Str,
            strToUtf8_unescape_loop (pre ++ []) (length pre) utf8Str
            = utf8Str ++ Host.unescape []) as Hnil.
  { intros pre utf8Str. rewrite strToUtf8_unescape_loop_eq, !app_nil_r.
    destruct (decide _); [lia | reflexivity]. }
  induction n as [|n IH]; intros [|c rest] pre utf8Str Hlen Hs; cbn [length] in Hlen;
    try lia; try apply Hnil.
  rewrite strToUtf8_unescape_loop_eq.
  destruct (decide _) as [_|Hge]; [|rewrite length_app in Hge; cbn [length] in Hge; lia].
  destruct Hs as [Hu Hrest].
  assert (∀ x, strToUtf8_unescape_loop (pre ++ c :: rest) (length pre + 1) x
               = x ++ Host.unescape rest) as Hnext.
  { intros x. rewrite (cons_middle c pre rest), app_assoc.
    replace (length pre + 1) with (length (pre ++ [c]))
      by (rewrite length_app; reflexivity).
    apply IH; [lia | done]. }
  destruct (Z.eqb_spec c Host.char_percent) as [->|Hc].
  - specialize (Hu eq_refl).
    destruct rest as [|h1 [|h2 r]].
    + rewrite strToUtf8_unescape_body_percent by (done || intros; discriminate).
      cbn. rewrite Hnext, <- app_assoc. reflexivity.
    + rewrite strToUtf8_unescape_body_percent by (done || intros; discriminate).
      cbn. rewrite Hnext, <- app_assoc. reflexivity.
    + assert (h1 ≠ Host.char_u) as Hh1 by (intros ->; by apply Hu).
      assert (Host.unescape (Host.char_percent :: h1 :: h2 :: r)
              = if Host.is_hex_digit h1 && Host.is_hex_digit h2
                then (16 * Host.hex_digit_value h1 + Host.hex_digit_value h2)%Z
                     :: Host.unescape r
                else Host.char_percent :: Host.unescape (h1 :: h2 :: r)) as ->.
      { cbn [Host.unescape]. rewrite Z.eqb_refl.
        destruct (Z.eqb_spec h1 Host.char_u); [done|]. cbn [andb].
        destruct r as [|a [|b [|d r']]]; reflexivity. }
      destruct (Host.is_hex_digit h1 && Host.is_hex_digit h2) eqn:Hhex.
      * apply andb_true_iff in Hhex as [Hhex1 Hhex2].
        rewrite strToUtf8_unescape_body_esc by done. cbn [fst snd].
        change (Host.char_percent :: h1 :: h2 :: r)
          with ([Host.char_percent; h1; h2] ++ r).
        rewrite app_assoc.
        replace (length pre + 2 + 1) with (length (pre ++ [Host.char_percent; h1; h2]))
          by (rewrite length_app; simpl; lia).
        rewrite IH, <- app_assoc; [reflexivity | simpl in *; lia|].
        simpl in Hrest. tauto.
      * rewrite strToUtf8_unescape_body_percent;
          [|done|intros ? ? ? [= <- <- <-]; done].
        cbn [fst snd]. rewrite Hnext, <- app_assoc. reflexivity.
  - rewrite strToUtf8_unescape_body_lit by done. cbn [fst snd].
    rewrite Hnext, <- app_assoc. cbn [Host.unescape].
    destruct (Z.eqb_spec c Host.char_percent); [done|]. reflexivity.
Qed.

(** ** More on the fallback for [escape] *)

Lemma utf8ToStr_escape_body_unit utf8Str i escaped c :
  utf8Str !! i = Some c → is_code_unit c →
  utf8ToStr_escape_body utf8Str i escaped = Ok (escaped ++ esc_unit c).
Proof.
  unfold is_code_unit. intros Hc Hunit.
  unfold utf8ToStr_escape_body, Host.charCodeAt, esc_unit. rewrite Hc. simpl.
  destruct (Host.nonEscapedChar_class c) eqn:Hclass; [reflexivity|].
  destruct (Z.leb_spec 256 c).
  - rewrite intToHex_unit by lia. reflexivity.
  - pose proof (nonEscapedChar_class_ascii c).
    rewrite intToHex_byte by lia. reflexivity.
Qed.

Lemma utf8ToStr_escape_loop_units utf8Str :
  is_string utf8Str →
  ∀ n i escaped, length utf8Str - i <= n →
    utf8ToStr_escape_loop utf8Str i escaped
    = Ok (escaped ++ flat_map esc_unit (drop i utf8Str)).
Proof.
  intros Hstr. induction n as [|n IH]; intros i escaped Hn;
    rewrite utf8ToStr_escape_loop_eq; destruct (decide _) as [Hlt|Hge]; try lia;
    try (rewrite drop_ge by lia; simpl; rewrite app_nil_r; reflexivity).
  destruct (lookup_lt_is_Some_2 utf8Str i) as [c Hc]; [lia|].
  rewrite (utf8ToStr_escape_body_unit utf8Str i escaped c Hc)
    by (eapply Forall_lookup_1; eauto).
  rewrite IH by lia. rewrite (drop_S utf8Str c i Hc). cbn [flat_map].
  rewrite <- app_assoc. replace (i + 1) with (S i) by lia. reflexivity.
Qed.

Lemma esc_unit_spec c R :
  is_code_unit c →
  Host.unescape (esc_unit c ++ R) = c :: Host.unescape R ∧ is_ascii (esc_unit c).
Proof.
  unfold is_code_unit. intros Hc. unfold esc_unit.
  destruct (Host.nonEscapedChar_class c) eqn:Hclass.
  - apply nonEscapedChar_class_ascii in Hclass. split.
    + cbn [app Host.unescape].
      destruct (Z.eqb_spec c Host.char_percent) as [Heq|_];
        [unfold Host.char_percent in Heq; lia | reflexivity].
    + repeat constructor; lia.
  - destruct (Z.leb_spec 256 c).
    + destruct (hex_lower_digit (c / 4096)) as (Hl1 & Hh1 & Hv1); [euclid|].
      destruct (hex_lower_digit (c / 256 mod 16)) as (Hl2 & Hh2 & Hv2); [euclid|].
      destruct (hex_lower_digit (c / 16 mod 16)) as (Hl3 & Hh3 & Hv3); [euclid|].
      destruct (hex_lower_digit (c mod 16)) as (Hl4 & Hh4 & Hv4); [euclid|].
      split.
      * cbn [app Host.unescape]. rewrite !Z.eqb_refl, Hh1, Hh2, Hh3, Hh4.
        cbn [andb]. rewrite Hv1, Hv2, Hv3, Hv4. f_equal. euclid.
      * unfold is_lower_hex, Host.char_percent, Host.char_u in *.
        repeat constructor; lia.
    + destruct (hex_lower_digit (c / 16)) as (Hl1 & Hh1 & Hv1); [euclid|].
      destruct (hex_lower_digit (c mod 16)) as (Hl2 & Hh2 & Hv2); [euclid|].
      destruct (is_hex_digit_value _ Hh1) as (_ & Hu & _).
      split.
      * unfold percent_lower. cbn [app Host.unescape]. rewrite Z.eqb_refl.
        destruct (Z.eqb_spec (Host.hex_lower (c / 16)) Host.char_u); [done|].
        rewrite Hh1, Hh2, Hv1, Hv2. cbn [andb].
        replace (16 * (c / 16) + c mod 16)%Z with c by euclid.
        destruct R as [|a [|b [|d R']]]; reflexivity.
      * unfold percent_lower, is_lower_hex, Host.char_percent in *.
        repeat constructor; lia.
Qed.

Lemma unescape_esc_units s :
  is_string s →
  Host.unescape (flat_map esc_unit s) = s ∧ is_ascii (flat_map esc_unit s).
Proof.
  induction 1 as [|c s Hc _ [IH1 IH2]]; [split; [reflexivity | constructor]|].
  cbn [flat_map]. destruct (esc_unit_spec c (flat_map esc_unit s) Hc) as [-> Hascii].
  rewrite IH1. split; [reflexivity|]. by apply Forall_app.
Qed.

Lemma utf8ToStr_strip_length data : length (utf8ToStr_strip data) <= length data.
Proof.
  unfold utf8ToStr_strip, Host.subarray. destruct (_ && _); [|lia].
  rewrite length_take, length_drop. lia.
Qed.

(** * The properties of the specification *)

(** C5: for every text [t], [strToLeUtf16 t] has exactly [2 * length t]
    bytes; the code unit [v] at index [i] is written as [v & 0xFF] at offset
    [2i] and as [(v >> 8) & 0xFF] at offset [2i + 1]; and ["A"] gives
    [[0x41, 0x00]]. *)
Theorem strToLeUtf16_layout (t : jsstring) :
  is_string t →
  length (strToLeUtf16 t) = 2 * length t ∧
  (∀ i v, t !! i = Some v →
     strToLeUtf16 t !! (2 * i) = Some (Z.land v 0xFF) ∧
     strToLeUtf16 t !! (2 * i + 1) = Some (Z.land (Z.shiftr v 8) 0xFF)) ∧
  strToLeUtf16 [0x41%Z] = [0x41%Z; 0x00%Z].
Proof.
  intros Ht. rewrite strToLeUtf16_spec by done. split; [|split].
  - apply flat_map_le_pair_length.
  - apply flat_map_le_pair_lookup.
  - reflexivity.
Qed.

Lemma strToLeUtf16_layout_witness :
  length (strToLeUtf16 [0x41; 0x20AC]%Z) = 2 * length [0x41; 0x20AC]%Z.
Proof.
  apply (strToLeUtf16_layout [0x41; 0x20AC]%Z).
  repeat constructor; unfold is_code_unit; lia.
Defined.

(** C4: [strToLeUtf16] and [leUtf16ToStr] are total functions, inverse of
    each other: decoding the encoding of a text [t] gives [t] back, and
    encoding the decoding of a buffer of even length gives the buffer
    back. *)
Theorem utf16_roundtrip (t : jsstring) (bytes : uint8array) :
  is_string t → is_bytes bytes → Nat.Even (length bytes) →
  leUtf16ToStr (strToLeUtf16 t) = t ∧
  is_string (leUtf16ToStr bytes) ∧
  strToLeUtf16 (leUtf16ToStr bytes) = bytes.
Proof.
  intros Ht Hbytes [n Hn]. rewrite !leUtf16ToStr_spec.
  rewrite (strToLeUtf16_spec t Ht).
  destruct (flat_map_le_units n bytes Hn Hbytes) as [Hstr Hback].
  split; [|split].
  - apply le_units_flat_map. assumption.
  - assumption.
  - rewrite strToLeUtf16_spec by done. assumption.
Qed.

Lemma utf16_roundtrip_witness :
  leUtf16ToStr (strToLeUtf16 [0x41; 0x20AC; 0xD83D]%Z) = [0x41; 0x20AC; 0xD83D]%Z ∧
  strToLeUtf16 (leUtf16ToStr [0xAC; 0x20; 0x00; 0xD8]%Z) = [0xAC; 0x20; 0x00; 0xD8]%Z.
Proof.
  assert (is_string [0x41; 0x20AC; 0xD83D]%Z) as Ht
    by (repeat constructor; unfold is_code_unit; lia).
  assert (is_bytes [0xAC; 0x20; 0x00; 0xD8]%Z) as Hb
    by (repeat constructor; unfold is_byte; lia).
  assert (Nat.Even (length [0xAC; 0x20; 0x00; 0xD8]%Z)) as He
    by (exists 2; reflexivity).
  destruct (utf16_roundtrip _ _ Ht Hb He) as (H1 & _ & H2).
  split; assumption.
Defined.

(** C2, as the code has it: a buffer of odd length loses nothing. Its last
    byte, whose partner reads as [undefined], is decoded as a code unit of
    its own with a zero high byte: the result is the decoding of the buffer
    without its last byte followed by that byte, it has
    [length / 2 + 1] code units, and it is the decoding of the buffer with
    a zero byte appended. *)
Theorem leUtf16ToStr_odd_length (data : uint8array) :
  is_bytes data → Nat.Odd (length data) →
  leUtf16ToStr data = leUtf16ToStr (removelast data) ++ [List.last data 0%Z] ∧
  length (leUtf16ToStr data) = length data / 2 + 1 ∧
  leUtf16ToStr data = leUtf16ToStr (data ++ [0%Z]).
Proof.
  intros Hdata Hodd. destruct (odd_length_snoc data Hodd) as (bytes & b & -> & Hlen).
  rewrite removelast_last, last_last, !leUtf16ToStr_spec.
  apply Forall_app in Hdata as [_ Hb]. apply Forall_cons in Hb as [Hb _].
  rewrite (le_units_app _ bytes [b] Hlen), (le_units_single b Hb).
  split; [reflexivity|]. split.
  - rewrite length_app, (le_units_length _ bytes Hlen). reflexivity.
  - rewrite <- app_assoc, (le_units_app _ bytes _ Hlen). f_equal.
    unfold is_byte in Hb. simpl. rewrite Z.mod_small; [reflexivity|].
    change (Host.shift_left (Some 0%Z) 8) with 0%Z. lia.
Qed.

Lemma leUtf16ToStr_odd_length_witness :
  length (leUtf16ToStr [0xAC; 0x20; 0x41]%Z) = length [0xAC; 0x20; 0x41]%Z / 2 + 1.
Proof.
  apply (leUtf16ToStr_odd_length [0xAC; 0x20; 0x41]%Z).
  - repeat constructor; unfold is_byte; lia.
  - exists 1. reflexivity.
Defined.

(** C2, as the claim has it, fails on the one-byte buffer [[0x41]]: the
    byte is not dropped, and the result has one code unit, not zero. *)
Lemma leUtf16ToStr_odd_length_counterexample :
  Nat.Odd (length [0x41%Z]) ∧
  leUtf16ToStr [0x41%Z] = [0x41%Z] ∧
  leUtf16ToStr [0x41%Z] ≠ leUtf16ToStr (removelast [0x41%Z]) ∧
  length (leUtf16ToStr [0x41%Z]) ≠ length [0x41%Z] / 2.
Proof.
  split; [exists 0; reflexivity|].
  split; [reflexivity|]. split; [discriminate|]. vm_compute. lia.
Qed.

(** C9: for every byte sequence, the chunked loop of [stringFromCharCodes]
    gives exactly the text of a single [String.fromCharCode] call on the
    whole buffer, one code unit per byte and equal to that byte, whatever
    the length of the buffer; the empty buffer gives the empty text. *)
Theorem stringFromCharCodes_single_pass (args : uint8array) :
  is_bytes args →
  stringFromCharCodes args = Host.fromCharCode_apply args ∧
  stringFromCharCodes args = args ∧
  stringFromCharCodes [] = [].
Proof.
  intros Hargs. split; [|split].
  - apply stringFromCharCodes_spec.
  - by apply stringFromCharCodes_bytes.
  - reflexivity.
Qed.

Lemma stringFromCharCodes_single_pass_witness :
  stringFromCharCodes [0x41; 0xFF; 0x00]%Z = [0x41; 0xFF; 0x00]%Z.
Proof.
  apply (stringFromCharCodes_single_pass [0x41; 0xFF; 0x00]%Z).
  repeat constructor; unfold is_byte; lia.
Defined.

(** C8, as the code has it: on a host whose strings have at most [limit]
    code units ([2^29 - 24] in V8, and below [2^32] on every engine), for
    non-negative integers [num] and [size] with [size] at most [limit] and
    below [2^32], [intToHex num size] is the lowercase hexadecimal writing of
    [num], without leading zero, behind [size - length] zeros when it is
    shorter than [size], and alone when it has [size] digits or more. *)
Theorem intToHex_pads (limit num size : Z) :
  (0 <= num)%Z → (0 <= size)%Z → (size <= limit)%Z → (size < 2 ^ 32)%Z →
  let digits := Host.toString16 num in
  let padded := replicate (Z.to_nat size - length digits) Host.char_0 ++ digits in
  intToHex_within limit num size = Ok padded ∧
  length padded = Nat.max (Z.to_nat size) (length digits) ∧
  Forall is_lower_hex padded ∧
  Host.parseInt16 padded = Some num ∧
  (num ≠ 0%Z → head digits ≠ Some Host.char_0) ∧
  intToHex = intToHex_within Host.max_string_length ∧
  intToHex 5 4 = Ok (js "0005") ∧ intToHex 5 2 = Ok (js "05") ∧
  intToHex 10 1 = Ok (js "a") ∧ intToHex 268 3 = Ok (js "10c") ∧
  intToHex 123456 4 = Ok (js "1e240").
Proof.
  intros Hnum Hsize Hlimit Harray. cbv zeta.
  pose proof (toString16_nonempty num) as Hne.
  destruct (intToHex_within_cases limit num size) as [Hok _].
  assert (Host.toString16 num = Host.hex_digits num) as Hts.
  { unfold Host.toString16. destruct (Z.ltb_spec num 0); [lia | reflexivity]. }
  rewrite Hts in Hok, Hne |- *.
  set (digits := Host.hex_digits num) in *.
  destruct (hex_digits_spec num Hnum) as (Hlow & Hhex & Hval & Hnz & Hpos).
  split; [apply Hok; right; lia|]. split; [|split; [|split; [|split]]].
  - rewrite length_app, length_replicate. lia.
  - apply Forall_app. split; [|assumption].
    apply Forall_replicate. left. unfold Host.char_0. lia.
  - unfold Host.parseInt16.
    destruct (parseInt16_from_zeros (Z.to_nat size - length digits) digits None)
      as (acc & Hacc & ->); [reflexivity|].
    by apply Hval.
  - assumption.
  - repeat split; reflexivity.
Qed.

Lemma intToHex_pads_witness : intToHex 4584 6 = Ok (js "0011e8").
Proof.
  apply (intToHex_pads Host.max_string_length 4584 6);
    try rewrite max_string_length_value; lia.
Defined.

(** C8, as the claim has it, fails for [size = 2^32], where [new Array]
    refuses the [2^32] holes of the padding, and already for
    [size = 2^29 - 23], a string that V8 does not build. *)
Lemma intToHex_pads_counterexample :
  intToHex 5 (2 ^ 32) = Throw RangeError ∧
  intToHex 5 536870889 = Throw RangeError.
Proof.
  split; [reflexivity|].
  apply (intToHex_within_cases Host.max_string_length 5 536870889).
  - vm_compute. reflexivity.
  - right. rewrite max_string_length_value. lia.
Qed.

(** C1, as the code has it: on a host where [window.escape] is a function,
    for every text [t] without unpaired surrogate that does not begin with
    U+FEFF, [strToUtf8 t] returns a buffer and [utf8ToStr] of that buffer
    returns [t]. *)
Theorem utf8_roundtrip (w : Host.window) (t : jsstring) :
  is_string t → well_formed t → head t ≠ Some 0xFEFF%Z →
  Host.window_escape w = Host.Builtin →
  ∃ bytes, strToUtf8 w t = Ok bytes ∧ utf8ToStr w bytes = Ok t.
Proof.
  intros Ht [cps Hcps] Hhead Hw.
  destruct (code_points_spec (length t) t cps) as (Hscalar & Hback & Hfeff); [done..|].
  rewrite strToUtf8_spec, Hcps by done. eexists. split; [reflexivity|].
  rewrite utf8ToStr_eq, utf8ToStr_strip_utf8 by (done || intros H; by apply Hhead, Hfeff).
  rewrite utf8ToStr_decode_spec.
  - rewrite decodeURIComponent_utf8, Hback by done. reflexivity.
  - assumption.
  - clear -Hscalar. induction Hscalar as [|cp cps Hcp _ IH]; [constructor|].
    cbn [flat_map]. apply Forall_app. split; [|done].
    apply utf8_encode_bytes, is_scalar_range, Hcp.
Qed.

Lemma utf8_roundtrip_witness :
  ∃ bytes,
    strToUtf8 browser [0xE9; 0x41; 0x20; 0x25; 0xD83D; 0xDE00; 0x20AC]%Z = Ok bytes ∧
    utf8ToStr browser bytes = Ok [0xE9; 0x41; 0x20; 0x25; 0xD83D; 0xDE00; 0x20AC]%Z.
Proof.
  apply (utf8_roundtrip browser).
  - repeat constructor; unfold is_code_unit; lia.
  - eexists. reflexivity.
  - discriminate.
  - reflexivity.
Defined.

(** C1, as the claim has it, fails on the one-character text U+FEFF, whose
    encoding is the byte order mark that [utf8ToStr] strips, and on a text
    with a lone surrogate, which [strToUtf8] refuses. *)
Lemma utf8_roundtrip_counterexample :
  strToUtf8 browser [0xFEFF%Z] = Ok [0xEF; 0xBB; 0xBF]%Z ∧
  utf8ToStr browser [0xEF; 0xBB; 0xBF]%Z = Ok [] ∧
  utf8ToStr browser [0xEF; 0xBB; 0xBF]%Z ≠ Ok [0xFEFF%Z] ∧
  strToUtf8 browser [0xD800%Z] = Throw URIError.
Proof. repeat split; try reflexivity. vm_compute. discriminate. Qed.

(** C3, on the failing input: on a host where [window.escape] is not a
    function, [utf8ToStr] takes the branch that calls [escape] and throws on
    every buffer, which is not what the loop written as a fallback returns,
    although that loop and the primitive give the same result. *)
Theorem utf8ToStr_escape_unavailable (w : Host.window) (data : uint8array) :
  is_bytes data → Host.window_escape w ≠ Host.Builtin →
  (utf8ToStr w data = Throw ReferenceError ∨ utf8ToStr w data = Throw TypeError) ∧
  utf8ToStr w data ≠ utf8ToStr_fallback (utf8ToStr_strip data) ∧
  utf8ToStr_fallback (utf8ToStr_strip data) = utf8ToStr_native (utf8ToStr_strip data).
Proof.
  intros Hdata Hw. pose proof (is_bytes_strip data Hdata) as Hstrip.
  assert (utf8ToStr w data = Throw ReferenceError ∨ utf8ToStr w data = Throw TypeError)
    as Hthrow by (rewrite utf8ToStr_eq; by apply utf8ToStr_decode_unavailable).
  split; [exact Hthrow|]. split.
  - intros Heq. unfold utf8ToStr_fallback in Heq.
    rewrite stringFromCharCodes_bytes in Heq by done.
    rewrite (utf8ToStr_escape_loop_spec _ Hstrip (length (utf8ToStr_strip data))) in Heq
      by lia.
    cbn in Heq.
    destruct Hthrow as [Hthrow|Hthrow]; rewrite Hthrow in Heq; symmetry in Heq;
      apply (decodeURIComponent_error _ _ _ (le_n _)) in Heq; discriminate.
  - symmetry. by apply utf8ToStr_paths_agree.
Qed.

Lemma utf8ToStr_escape_unavailable_witness :
  utf8ToStr bare_host [0x41%Z] = Throw ReferenceError ∨
  utf8ToStr bare_host [0x41%Z] = Throw TypeError.
Proof.
  apply (utf8ToStr_escape_unavailable bare_host [0x41%Z]).
  - repeat constructor; unfold is_byte; lia.
  - discriminate.
Defined.

(** C6, as the code has it: [utf8ToStr] strips one byte order mark, so on
    the mark followed by [bytes] it decodes [bytes] with nothing more
    stripped; that is [utf8ToStr bytes] when [bytes] does not begin with a
    mark itself. *)
Theorem utf8ToStr_strips_one_BOM (w : Host.window) (bytes : uint8array) :
  utf8ToStr w (BOM ++ bytes) = utf8ToStr_decode w bytes ∧
  ((∀ rest, bytes ≠ BOM ++ rest) →
   utf8ToStr w (BOM ++ bytes) = utf8ToStr w bytes).
Proof.
  rewrite !utf8ToStr_eq, utf8ToStr_strip_BOM. split; [reflexivity|].
  intros Hno. rewrite (no_BOM_prefix bytes Hno). reflexivity.
Qed.

Lemma utf8ToStr_strips_one_BOM_witness :
  utf8ToStr browser (BOM ++ [0xC3; 0xA9]%Z) = utf8ToStr browser [0xC3; 0xA9]%Z.
Proof.
  apply (utf8ToStr_strips_one_BOM browser [0xC3; 0xA9]%Z).
  intros rest. discriminate.
Defined.

(** C6, as the claim has it, fails when [bytes] begins with a mark: the
    second mark is decoded as U+FEFF on the left and stripped on the
    right. *)
Lemma utf8ToStr_strips_one_BOM_counterexample :
  utf8ToStr browser (BOM ++ (BOM ++ [0x41%Z])) = Ok [0xFEFF; 0x41]%Z ∧
  utf8ToStr browser (BOM ++ [0x41%Z]) = Ok [0x41%Z] ∧
  utf8ToStr browser (BOM ++ (BOM ++ [0x41%Z])) ≠ utf8ToStr browser (BOM ++ [0x41%Z]).
Proof. repeat split; try reflexivity. vm_compute. discriminate. Qed.

(** C7, as the code has it: [strToLeUtf16] and [leUtf16ToStr] return a
    value on every input; [strToUtf8] returns a buffer for a text without
    unpaired surrogate and throws the [URIError] of [encodeURIComponent] for
    any other text; on a host where [window.escape] is a function,
    [utf8ToStr] throws only the [URIError] of its last step,
    [decodeURIComponent]; and the empty inputs give the empty outputs. *)
Theorem codec_errors (w : Host.window) (t : jsstring) (data : uint8array) :
  is_string t → is_bytes data → Host.window_escape w = Host.Builtin →
  (well_formed t → ∃ bytes, strToUtf8 w t = Ok bytes) ∧
  (¬ well_formed t → strToUtf8 w t = Throw URIError) ∧
  (∀ e, utf8ToStr w data = Throw e →
     e = URIError ∧
     Host.decodeURIComponent (flat_map esc_byte (utf8ToStr_strip data)) = Throw URIError) ∧
  strToUtf8 w [] = Ok [] ∧ utf8ToStr w [] = Ok [] ∧
  strToLeUtf16 [] = [] ∧ leUtf16ToStr [] = [].
Proof.
  intros Ht Hdata Hw. rewrite (strToUtf8_spec w t Ht).
  split; [|split; [|split]].
  - intros [cps ->]. eauto.
  - unfold well_formed. destruct (code_points t); [|done]. intros []. eauto.
  - intros e. rewrite utf8ToStr_eq, utf8ToStr_decode_spec by (done || by apply is_bytes_strip).
    intros He. pose proof (decodeURIComponent_error _ _ _ (le_n _) He) as ->. done.
  - rewrite (strToUtf8_spec w []) by constructor.
    rewrite utf8ToStr_eq, utf8ToStr_decode_spec by (done || constructor).
    repeat split; reflexivity.
Qed.

Lemma codec_errors_witness : ∃ bytes, strToUtf8 browser [0xE9; 0x20AC]%Z = Ok bytes.
Proof.
  apply (codec_errors browser [0xE9; 0x20AC]%Z [0xC3]%Z).
  - repeat constructor; unfold is_code_unit; lia.
  - repeat constructor; unfold is_byte; lia.
  - reflexivity.
  - eexists. reflexivity.
Defined.

(** C7, as the claim has it, fails on a text with a lone surrogate:
    [strToUtf8] throws on it, before any decoding. *)
Lemma codec_errors_counterexample :
  is_string [0xD800%Z] ∧ strToUtf8 browser [0xD800%Z] = Throw URIError.
Proof.
  split; [|reflexivity]. repeat constructor; unfold is_code_unit; lia.
Qed.

(** C10, as the code has it: on every host, for every buffer of fewer than
    three bytes the test for the byte order mark reads [undefined] past the
    end, matches nothing and strips nothing, so that all the bytes go to the
    decoding steps. On a host where [window.escape] is a function these
    steps are the escape loop and [decodeURIComponent], which may still
    refuse the bytes: the two bytes [[0xEF, 0xBB]] are not taken for a mark,
    and [decodeURIComponent] throws on them as on any truncated sequence,
    while [[0x41, 0x42]] gives ["AB"]. *)
Theorem utf8ToStr_short_buffer (w : Host.window) (data : uint8array) :
  length data < 3 →
  utf8ToStr_strip data = data ∧
  utf8ToStr w data = utf8ToStr_decode w data ∧
  utf8ToStr_strip [0xEF; 0xBB]%Z = [0xEF; 0xBB]%Z ∧
  (Host.window_escape w = Host.Builtin →
   (is_bytes data →
    utf8ToStr w data = Host.decodeURIComponent (flat_map esc_byte data)) ∧
   utf8ToStr w [0xEF; 0xBB]%Z = Throw URIError ∧
   utf8ToStr w [0x41; 0x42]%Z = Ok (js "AB")).
Proof.
  intros Hlen. rewrite !utf8ToStr_eq, (utf8ToStr_strip_short data Hlen).
  split; [reflexivity|]. split; [reflexivity|]. split; [reflexivity|].
  intros Hw. split; [|split].
  - intros Hdata. by apply utf8ToStr_decode_spec.
  - assert (is_bytes [0xEF; 0xBB]%Z) as Hb by (repeat constructor; unfold is_byte; lia).
    rewrite utf8ToStr_strip_short by (simpl; lia).
    rewrite utf8ToStr_decode_spec by done. reflexivity.
  - assert (is_bytes [0x41; 0x42]%Z) as Hb by (repeat constructor; unfold is_byte; lia).
    rewrite utf8ToStr_strip_short by (simpl; lia).
    rewrite utf8ToStr_decode_spec by done. reflexivity.
Qed.

Lemma utf8ToStr_short_buffer_witness :
  utf8ToStr browser [0xEF; 0xBB]%Z = Throw URIError ∧
  utf8ToStr browser [0x41; 0x42]%Z = Ok (js "AB").
Proof.
  destruct (utf8ToStr_short_buffer browser [0xEF; 0xBB]%Z) as (_ & _ & _ & H).
  - simpl. lia.
  - destruct (H eq_refl) as (_ & Hbad & Hgood). split; assumption.
Defined.

(** C10, as the claim has it, fails on its own example: [[0xEF, 0xBB]]
    is not decoded, [utf8ToStr] throws on it, on a host that has [escape]
    as on one that has not. *)
Lemma utf8ToStr_short_buffer_counterexample :
  length [0xEF; 0xBB]%Z < 3 ∧
  utf8ToStr browser [0xEF; 0xBB]%Z = Throw URIError ∧
  utf8ToStr bare_host [0xEF; 0xBB]%Z = Throw ReferenceError.
Proof. split; [simpl; lia | split; reflexivity]. Qed.

(** * Further properties of the code *)

(** X1: for every byte buffer, [leUtf16ToStr] returns [(length + 1) / 2]
    code units of 16 bits, and the code unit at index [i] of a full pair is
    [256 * bytes[2i + 1] + bytes[2i]]. *)
Theorem leUtf16ToStr_units (bytes : uint8array) :
  is_bytes bytes →
  length (leUtf16ToStr bytes) = (length bytes + 1) / 2 ∧
  is_string (leUtf16ToStr bytes) ∧
  ∀ i lo hi, bytes !! (2 * i) = Some lo → bytes !! (2 * i + 1) = Some hi →
             leUtf16ToStr bytes !! i = Some (256 * hi + lo)%Z.
Proof.
  intros Hbytes. rewrite leUtf16ToStr_spec.
  by apply (le_units_facts (length bytes)).
Qed.

Lemma leUtf16ToStr_units_witness :
  leUtf16ToStr [0xAC; 0x20; 0x41]%Z !! 0 = Some (256 * 0x20 + 0xAC)%Z.
Proof.
  assert (is_bytes [0xAC; 0x20; 0x41]%Z) as Hb
    by (repeat constructor; unfold is_byte; lia).
  destruct (leUtf16ToStr_units _ Hb) as (_ & _ & Hlook).
  apply (Hlook 0); reflexivity.
Defined.

(** X2: both UTF-16 functions go through concatenation: the encoding of
    [s ++ t] is the encoding of [s] followed by that of [t], and the decoding
    of [a ++ b] is the decoding of [a] followed by that of [b] when [a] has
    an even length. *)
Theorem utf16_concat (s t : jsstring) (a b : uint8array) :
  is_string s → is_string t → Nat.Even (length a) →
  strToLeUtf16 (s ++ t) = strToLeUtf16 s ++ strToLeUtf16 t ∧
  leUtf16ToStr (a ++ b) = leUtf16ToStr a ++ leUtf16ToStr b.
Proof.
  intros Hs Ht [n Hn]. split.
  - rewrite !strToLeUtf16_spec by (done || by apply Forall_app).
    apply flat_map_app.
  - rewrite !leUtf16ToStr_spec. by apply (le_units_app n).
Qed.

Lemma utf16_concat_witness :
  strToLeUtf16 ([0x41] ++ [0x20AC])%Z = strToLeUtf16 [0x41%Z] ++ strToLeUtf16 [0x20AC%Z] ∧
  leUtf16ToStr ([0x41; 0x00] ++ [0xAC])%Z = leUtf16ToStr [0x41; 0x00]%Z ++ leUtf16ToStr [0xAC%Z].
Proof.
  apply (utf16_concat [0x41%Z] [0x20AC%Z] [0x41; 0x00]%Z [0xAC%Z]).
  - repeat constructor; unfold is_code_unit; lia.
  - repeat constructor; unfold is_code_unit; lia.
  - exists 1. reflexivity.
Defined.

(** X3: whatever the host has of [unescape], [strToUtf8] returns the UTF-8
    octets of the code points of the text, one code point after the other:
    one octet below U+0080, two below U+0800, three below U+10000, and four
    for a surrogate pair. *)
Theorem strToUtf8_octets (w : Host.window) (t : jsstring) (cps : list Z) :
  is_string t → code_points t = Some cps →
  strToUtf8 w t = Ok (flat_map Host.utf8_encode cps) ∧
  is_bytes (flat_map Host.utf8_encode cps).
Proof.
  intros Ht Hcps. rewrite strToUtf8_spec, Hcps by done. split; [reflexivity|].
  apply is_bytes_utf8. by destruct (code_points_spec (length t) t cps) as (? & _).
Qed.

Lemma strToUtf8_octets_witness :
  strToUtf8 bare_host [0x24; 0xA3; 0x20AC; 0xD83D; 0xDE00]%Z
  = Ok [0x24; 0xC2; 0xA3; 0xE2; 0x82; 0xAC; 0xF0; 0x9F; 0x98; 0x80]%Z.
Proof.
  apply (strToUtf8_octets bare_host [0x24; 0xA3; 0x20AC; 0xD83D; 0xDE00]%Z
           [0x24; 0xA3; 0x20AC; 0x1F600]%Z).
  - repeat constructor; unfold is_code_unit; lia.
  - reflexivity.
Defined.

(** X4: on a text of ASCII characters both UTF-8 functions are the
    identity: [strToUtf8] returns the code units as bytes, and [utf8ToStr]
    (on a host where [window.escape] is a function) returns the bytes as
    code units. *)
Theorem utf8_ascii_identity (w : Host.window) (t : jsstring) :
  is_ascii t → Host.window_escape w = Host.Builtin →
  strToUtf8 w t = Ok t ∧ utf8ToStr w t = Ok t.
Proof.
  intros Ht Hw.
  destruct (code_points_ascii t Ht) as (Hcps & Hutf8 & Hutf16 & Hscalar & Hstr).
  split.
  - rewrite strToUtf8_spec, Hcps, Hutf8 by done. reflexivity.
  - rewrite utf8ToStr_eq. rewrite <- Hutf8 at 1.
    rewrite utf8ToStr_strip_utf8; [|done|].
    + rewrite utf8ToStr_decode_spec by (done || by apply is_bytes_utf8).
      rewrite decodeURIComponent_utf8, Hutf16 by done. reflexivity.
    + destruct Ht as [|c t Hc _]; [discriminate|]. simpl. intros [=]. lia.
Qed.

Lemma utf8_ascii_identity_witness :
  strToUtf8 browser (js "a%b c,@") = Ok (js "a%b c,@") ∧
  utf8ToStr browser (js "a%b c,@") = Ok (js "a%b c,@").
Proof.
  apply (utf8_ascii_identity browser (js "a%b c,@")).
  - repeat constructor; lia.
  - reflexivity.
Defined.

(** X5: the buffer that [strToUtf8] returns has at least as many bytes as
    the text has code units, and at most three times as many. *)
Theorem strToUtf8_length (w : Host.window) (t : jsstring) (bytes : uint8array) :
  is_string t → strToUtf8 w t = Ok bytes →
  length t <= length bytes <= 3 * length t.
Proof.
  intros Ht. rewrite strToUtf8_spec by done.
  destruct (code_points t) as [cps|] eqn:Hcps; [|discriminate].
  intros [= <-]. by apply (utf8_length_bounds (length t)).
Qed.

Lemma strToUtf8_length_witness :
  length [0x41; 0x20AC]%Z <= length [0x41; 0xE2; 0x82; 0xAC]%Z <= 3 * length [0x41; 0x20AC]%Z.
Proof.
  apply (strToUtf8_length browser [0x41; 0x20AC]%Z [0x41; 0xE2; 0x82; 0xAC]%Z).
  - repeat constructor; unfold is_code_unit; lia.
  - reflexivity.
Defined.

(** X6: [strToUtf8] goes through concatenation: when it encodes [s] and
    encodes [t], it encodes [s ++ t] as the two buffers one after the
    other. *)
Theorem strToUtf8_concat (w : Host.window) (s t : jsstring) (bs bt : uint8array) :
  is_string s → is_string t →
  strToUtf8 w s = Ok bs → strToUtf8 w t = Ok bt →
  strToUtf8 w (s ++ t) = Ok (bs ++ bt).
Proof.
  intros Hs Ht. rewrite !strToUtf8_spec by (done || by apply Forall_app).
  destruct (code_points s) as [cs|] eqn:Hcs; [|discriminate].
  destruct (code_points t) as [ct|] eqn:Hct; [|discriminate].
  intros [= <-] [= <-].
  rewrite (code_points_app (length s) s t cs ct) by done.
  rewrite flat_map_app. reflexivity.
Qed.

Lemma strToUtf8_concat_witness :
  strToUtf8 browser ([0xE9] ++ [0xD83D; 0xDE00])%Z
  = Ok ([0xC3; 0xA9] ++ [0xF0; 0x9F; 0x98; 0x80])%Z.
Proof.
  apply (strToUtf8_concat browser [0xE9%Z] [0xD83D; 0xDE00]%Z).
  - repeat constructor; unfold is_code_unit; lia.
  - repeat constructor; unfold is_code_unit; lia.
  - reflexivity.
  - reflexivity.
Defined.

(** X7: on a host where [window.escape] is a function, for every text
    without unpaired surrogate, [utf8ToStr] of [strToUtf8] of the text is the
    text without its first character when that is U+FEFF, and the text
    itself otherwise: the round trip loses one leading U+FEFF and nothing
    else. *)
Theorem utf8_roundtrip_loses_BOM_char (w : Host.window) (t : jsstring) :
  is_string t → well_formed t → Host.window_escape w = Host.Builtin →
  ∃ bytes, strToUtf8 w t = Ok bytes ∧ utf8ToStr w bytes = Ok (without_BOM_char t).
Proof.
  intros Ht [cps Hcps] Hw.
  rewrite strToUtf8_spec, Hcps by done. eexists. split; [reflexivity|].
  destruct t as [|c t].
  { injection Hcps as <-. rewrite utf8ToStr_eq.
    change (utf8ToStr_strip (flat_map Host.utf8_encode [])) with (@nil Z).
    rewrite utf8ToStr_decode_spec by (done || constructor). reflexivity. }
  unfold without_BOM_char. destruct (Z.eqb_spec c 0xFEFF) as [->|Hne].
  - rewrite code_points_not_surrogate in Hcps by lia.
    destruct (code_points t) as [cps'|] eqn:Hcps'; [|discriminate].
    injection Hcps as <-. apply Forall_cons in Ht as [_ Ht].
    destruct (code_points_spec (length t) t cps') as (Hscalar & Hback & _); [done..|].
    change (flat_map Host.utf8_encode (65279%Z :: cps'))
      with (BOM ++ flat_map Host.utf8_encode cps').
    rewrite utf8ToStr_eq, utf8ToStr_strip_BOM.
    rewrite utf8ToStr_decode_spec by (done || by apply is_bytes_utf8).
    rewrite decodeURIComponent_utf8, Hback by done. reflexivity.
  - destruct (code_points_spec (length (c :: t)) (c :: t) cps)
      as (Hscalar & Hback & Hfeff); [done..|].
    rewrite utf8ToStr_eq, utf8ToStr_strip_utf8;
      [|done|intros H; apply Hfeff in H; injection H as H; done].
    rewrite utf8ToStr_decode_spec by (done || by apply is_bytes_utf8).
    rewrite decodeURIComponent_utf8, Hback by done. reflexivity.
Qed.

Lemma utf8_roundtrip_loses_BOM_char_witness :
  ∃ bytes, strToUtf8 browser [0xFEFF; 0xFEFF; 0x41]%Z = Ok bytes ∧
           utf8ToStr browser bytes = Ok [0xFEFF; 0x41]%Z.
Proof.
  apply (utf8_roundtrip_loses_BOM_char browser [0xFEFF; 0xFEFF; 0x41]%Z).
  - repeat constructor; unfold is_code_unit; lia.
  - eexists. reflexivity.
  - reflexivity.
Defined.

(** X8: on a host where [window.escape] is a function, [utf8ToStr] returns
    a text [t] for a buffer exactly when the bytes after the byte order mark
    are the UTF-8 encoding of [t], that is when [strToUtf8 t] is that
    buffer: it decodes the well-formed buffers and no other, and encoding
    what it returns gives the bytes back. *)
Theorem utf8ToStr_inverts_strToUtf8 (w : Host.window) (data : uint8array) (t : jsstring) :
  is_bytes data → Host.window_escape w = Host.Builtin →
  utf8ToStr w data = Ok t ↔
  is_string t ∧ strToUtf8 w t = Ok (utf8ToStr_strip data).
Proof.
  intros Hdata Hw. split.
  - intros Hdec.
    destruct (utf8ToStr_Ok_inv w data t Hdata Hw Hdec) as (cps & Hcps & -> & ->).
    destruct (code_points_utf16 cps Hcps) as [Hpoints Hstr].
    split; [done|]. rewrite strToUtf8_spec, Hpoints by done. reflexivity.
  - intros [Ht Henc]. rewrite strToUtf8_spec in Henc by done.
    destruct (code_points t) as [cps|] eqn:Hcps; [|discriminate].
    injection Henc as Henc.
    destruct (code_points_spec (length t) t cps) as (Hscalar & Hback & _); [done..|].
    rewrite utf8ToStr_eq, <- Henc.
    rewrite utf8ToStr_decode_spec by (done || by apply is_bytes_utf8).
    rewrite decodeURIComponent_utf8, Hback by done. reflexivity.
Qed.

Lemma utf8ToStr_inverts_strToUtf8_witness :
  strToUtf8 browser [0xFEFF; 0x20AC]%Z
  = Ok (utf8ToStr_strip [0xEF; 0xBB; 0xBF; 0xEF; 0xBB; 0xBF; 0xE2; 0x82; 0xAC]%Z).
Proof.
  apply (utf8ToStr_inverts_strToUtf8 browser
           [0xEF; 0xBB; 0xBF; 0xEF; 0xBB; 0xBF; 0xE2; 0x82; 0xAC]%Z [0xFEFF; 0x20AC]%Z).
  - repeat constructor; unfold is_byte; lia.
  - reflexivity.
  - reflexivity.
Defined.

(** X9: on a host where [window.escape] is a function, [utf8ToStr] throws
    a [URIError] on every buffer that holds, after the byte order mark, one
    of the bytes that no UTF-8 encoding has: [0xC0], [0xC1] or [0xF5] and
    above. *)
Theorem utf8ToStr_rejects_bytes (w : Host.window) (data : uint8array) (b : Z) :
  is_bytes data → Host.window_escape w = Host.Builtin →
  b ∈ utf8ToStr_strip data → b = 0xC0%Z ∨ b = 0xC1%Z ∨ (0xF5 <= b)%Z →
  utf8ToStr w data = Throw URIError.
Proof.
  intros Hdata Hw Hin Hb.
  destruct (utf8ToStr w data) as [t|e] eqn:Hdec.
  - exfalso.
    destruct (utf8ToStr_Ok_inv w data t Hdata Hw Hdec) as (cps & Hcps & Hstrip & _).
    rewrite Hstrip in Hin. clear -Hcps Hin Hb.
    induction Hcps as [|cp cps Hcp _ IH]; [by apply elem_of_nil in Hin|].
    cbn [flat_map] in Hin. apply elem_of_app in Hin as [Hin|Hin]; [|by apply IH].
    pose proof (utf8_encode_allowed cp Hcp) as Hall.
    rewrite Forall_forall in Hall. apply Hall in Hin. lia.
  - f_equal. rewrite utf8ToStr_eq, utf8ToStr_decode_spec in Hdec
      by (done || by apply is_bytes_strip).
    by apply (decodeURIComponent_error _ _ _ (le_n _)) in Hdec.
Qed.

Lemma utf8ToStr_rejects_bytes_witness :
  utf8ToStr browser [0x41; 0xC0; 0x80]%Z = Throw URIError.
Proof.
  apply (utf8ToStr_rejects_bytes browser [0x41; 0xC0; 0x80]%Z 0xC0%Z).
  - repeat constructor; unfold is_byte; lia.
  - reflexivity.
  - change (utf8ToStr_strip [0x41; 0xC0; 0x80]%Z) with [0x41; 0xC0; 0x80]%Z.
    apply elem_of_cons. right. apply elem_of_cons. left. reflexivity.
  - left. reflexivity.
Defined.

(** X10: on a host whose strings have at most [limit] code units,
    [intToHex] throws a [RangeError] exactly when the string needs padding
    and either the array of [size - length + 1] holes is too long ([2^32] or
    more) or the padded string is ([size] above [limit]); in every other case
    it returns the padded string, for every integer: for a negative [num]
    the string is the minus sign and the digits of [-num], so that the zeros
    come before the sign. *)
Theorem intToHex_errors (limit num size : Z) :
  let digits := Host.toString16 num in
  (intToHex_within limit num size = Throw RangeError ↔
   (Z.of_nat (length digits) < size)%Z ∧
   ((2 ^ 32 <= size - Z.of_nat (length digits) + 1)%Z ∨ (limit < size)%Z)) ∧
  ((size <= Z.of_nat (length digits))%Z ∨
   ((size - Z.of_nat (length digits) + 1 < 2 ^ 32)%Z ∧ (size <= limit)%Z) →
   intToHex_within limit num size
   = Ok (replicate (Z.to_nat size - length digits) Host.char_0 ++ digits)) ∧
  ((num < 0)%Z → digits = (45 :: Host.toString16 (- num))%Z).
Proof.
  cbv zeta. destruct (intToHex_within_cases limit num size) as [Hok Hthrow].
  split; [|split].
  - split; [|intros [Hlt Hcase]; by apply Hthrow].
    intros Heq.
    destruct (Z.le_gt_cases size (Z.of_nat (length (Host.toString16 num)))) as [Hle|Hgt].
    { rewrite (Hok (or_introl Hle)) in Heq. discriminate. }
    split; [lia|].
    destruct (Z.lt_ge_cases (size - Z.of_nat (length (Host.toString16 num)) + 1) (2 ^ 32))
      as [Hlt|Hge]; [|by left].
    destruct (Z.le_gt_cases size limit) as [Hfit|Hover]; [|right; lia].
    rewrite (Hok (or_intror (conj Hlt Hfit))) in Heq. discriminate.
  - exact Hok.
  - intros Hneg. unfold Host.toString16.
    destruct (Z.ltb_spec num 0); [|lia]. destruct (Z.ltb_spec (- num) 0); [lia|].
    reflexivity.
Qed.

Lemma intToHex_errors_witness : intToHex (-255) 5 = Ok (js "00-ff").
Proof.
  destruct (intToHex_errors Host.max_string_length (-255) 5) as (_ & Hok & _).
  apply Hok. right. split; [vm_compute; reflexivity|].
  rewrite max_string_length_value. lia.
Defined.

(** X11: on every string in which no [%] is directly followed by [u], the
    loop written as a fallback in [strToUtf8] computes what [unescape]
    computes, also where a [%] is not followed by two hexadecimal digits. *)
Theorem strToUtf8_unescape_loop_unescape (pcStr : jsstring) :
  no_percent_u pcStr →
  strToUtf8_unescape_loop pcStr 0 [] = Host.unescape pcStr.
Proof.
  intros Hs. apply (strToUtf8_unescape_loop_general (length pcStr) pcStr [] []); [lia | done].
Qed.

Lemma strToUtf8_unescape_loop_unescape_witness :
  strToUtf8_unescape_loop (js "a%41%zz%4") 0 [] = Host.unescape (js "a%41%zz%4").
Proof.
  apply (strToUtf8_unescape_loop_unescape (js "a%41%zz%4")).
  simpl. repeat split; intros; discriminate.
Defined.

(** X12: on [%u] followed by four hexadecimal digits the loop written as a
    fallback in [strToUtf8] does not do what [unescape] does: it hands the
    [u] to [parseInt] with the digits, gets [NaN], and appends U+0000 whatever
    the digits, where [unescape] appends the code unit that they write. *)
Theorem strToUtf8_unescape_loop_percent_u (h1 h2 h3 h4 : Z) (rest : jsstring) :
  Host.is_hex_digit h1 = true → Host.is_hex_digit h2 = true →
  Host.is_hex_digit h3 = true → Host.is_hex_digit h4 = true →
  no_percent_u rest →
  let pcStr := Host.char_percent :: Host.char_u :: h1 :: h2 :: h3 :: h4 :: rest in
  strToUtf8_unescape_loop pcStr 0 [] = 0%Z :: Host.unescape rest ∧
  Host.unescape pcStr
  = (4096 * Host.hex_digit_value h1 + 256 * Host.hex_digit_value h2
     + 16 * Host.hex_digit_value h3 + Host.hex_digit_value h4)%Z :: Host.unescape rest.
Proof.
  intros Hh1 Hh2 Hh3 Hh4 Hrest pcStr. split.
  - subst pcStr. rewrite strToUtf8_unescape_loop_eq.
    destruct (decide _) as [_|Hge]; [|simpl in Hge; lia].
    pose proof (strToUtf8_unescape_body_u [] h1 h2 h3 h4 rest [] Hh1 Hh2 Hh3 Hh4) as Hbody.
    cbn [app length] in Hbody. rewrite Hbody. cbn [fst snd].
    exact (strToUtf8_unescape_loop_general (length rest) rest
             [Host.char_percent; Host.char_u; h1; h2; h3; h4] [0%Z] (le_n _) Hrest).
  - subst pcStr. cbn [Host.unescape]. rewrite !Z.eqb_refl, Hh1, Hh2, Hh3, Hh4.
    reflexivity.
Qed.

Lemma strToUtf8_unescape_loop_percent_u_witness :
  strToUtf8_unescape_loop (js "%u0041b") 0 [] = 0%Z :: Host.unescape (js "b").
Proof.
  apply (strToUtf8_unescape_loop_percent_u 48 48 52 49 (js "b")); try reflexivity.
  simpl. repeat split; intros; discriminate.
Defined.

(** X13: on every string the loop written as a fallback in [utf8ToStr]
    throws nothing and returns a string of ASCII characters that [unescape]
    turns back into the string: [%XX] for a code unit below 256 and
    [%uXXXX] for one from 256 on, unless it is one of the characters left
    as they are. *)
Theorem utf8ToStr_escape_loop_unescape (utf8Str : jsstring) :
  is_string utf8Str →
  ∃ escaped,
    utf8ToStr_escape_loop utf8Str 0 [] = Ok escaped ∧
    escaped = flat_map esc_unit utf8Str ∧
    Host.unescape escaped = utf8Str ∧ is_ascii escaped.
Proof.
  intros Hstr. eexists. split; [|split; [reflexivity|]].
  - by rewrite (utf8ToStr_escape_loop_units utf8Str Hstr (length utf8Str)) by lia.
  - by apply unescape_esc_units.
Qed.

Lemma utf8ToStr_escape_loop_unescape_witness :
  ∃ escaped,
    utf8ToStr_escape_loop [0x41; 0x25; 0xE9; 0x20AC]%Z 0 [] = Ok escaped ∧
    escaped = js "A%25%e9%u20ac".
Proof.
  destruct (utf8ToStr_escape_loop_unescape [0x41; 0x25; 0xE9; 0x20AC]%Z)
    as (escaped & Hloop & Hesc & _).
  - repeat constructor; unfold is_code_unit; lia.
  - exists escaped. split; [exact Hloop|]. rewrite Hesc. reflexivity.
Defined.

(** X14: on a host where [window.escape] is a function, [utf8ToStr], which
    runs its own loop there, returns for every buffer what the call of
    [escape] followed by [decodeURIComponent] returns: the two ways of
    escaping differ in the case of the digits and on [@] and [,], and not in
    the text decoded. *)
Theorem utf8ToStr_as_native (w : Host.window) (data : uint8array) :
  is_bytes data → Host.window_escape w = Host.Builtin →
  utf8ToStr w data = utf8ToStr_native (utf8ToStr_strip data) ∧
  Host.escape [0x40; 0x2C; 0xE9]%Z ≠ flat_map esc_byte [0x40; 0x2C; 0xE9]%Z.
Proof.
  intros Hdata Hw. split; [|vm_compute; discriminate].
  rewrite (utf8ToStr_escape_available w data Hw).
  symmetry. apply utf8ToStr_paths_agree. by apply is_bytes_strip.
Qed.

Lemma utf8ToStr_as_native_witness :
  utf8ToStr browser [0x40; 0x2C; 0xC3; 0xA9]%Z
  = utf8ToStr_native (utf8ToStr_strip [0x40; 0x2C; 0xC3; 0xA9]%Z).
Proof.
  apply (utf8ToStr_as_native browser [0x40; 0x2C; 0xC3; 0xA9]%Z).
  - repeat constructor; unfold is_byte; lia.
  - reflexivity.
Defined.

(** X15: [strToUtf8] never gives the same buffer for two texts. *)
Theorem strToUtf8_injective (w : Host.window) (s t : jsstring) (bytes : uint8array) :
  is_string s → is_string t →
  strToUtf8 w s = Ok bytes → strToUtf8 w t = Ok bytes → s = t.
Proof.
  intros Hs Ht. rewrite !strToUtf8_spec by done.
  destruct (code_points s) as [cs|] eqn:Hcs; [|discriminate].
  destruct (code_points t) as [ct|] eqn:Hct; [|discriminate].
  intros [= <-] [= Heq].
  destruct (code_points_spec (length s) s cs) as (Hscs & Hbs & _); [done..|].
  destruct (code_points_spec (length t) t ct) as (Hsct & Hbt & _); [done..|].
  pose proof (decodeURIComponent_utf8 cs Hscs) as Hds.
  pose proof (decodeURIComponent_utf8 ct Hsct) as Hdt.
  rewrite Heq, Hds, Hbs, Hbt in Hdt. by injection Hdt.
Qed.

Lemma strToUtf8_injective_witness : [0xE9%Z] = [0xE9%Z].
Proof.
  apply (strToUtf8_injective browser [0xE9%Z] [0xE9%Z] [0xC3; 0xA9]%Z).
  - repeat constructor; unfold is_code_unit; lia.
  - repeat constructor; unfold is_code_unit; lia.
  - reflexivity.
  - reflexivity.
Defined.

(** X16: on a host where [window.escape] is a function, the text that
    [utf8ToStr] returns never has more code units than the buffer has
    bytes. *)
Theorem utf8ToStr_length (w : Host.window) (data : uint8array) (t : jsstring) :
  is_bytes data → Host.window_escape w = Host.Builtin →
  utf8ToStr w data = Ok t → length t <= length data.
Proof.
  intros Hdata Hw Hdec.
  destruct (utf8ToStr_Ok_inv w data t Hdata Hw Hdec) as (cps & Hcps & Hstrip & ->).
  destruct (code_points_utf16 cps Hcps) as [Hpoints Hstr].
  pose proof (utf8_length_bounds _ _ cps (le_n _) Hstr Hpoints) as Hbound.
  pose proof (utf8ToStr_strip_length data). rewrite Hstrip in *. lia.
Qed.

Lemma utf8ToStr_length_witness :
  length [0x20AC; 0x41]%Z <= length [0xEF; 0xBB; 0xBF; 0xE2; 0x82; 0xAC; 0x41]%Z.
Proof.
  apply (utf8ToStr_length browser [0xEF; 0xBB; 0xBF; 0xE2; 0x82; 0xAC; 0x41]%Z
           [0x20AC; 0x41]%Z).
  - repeat constructor; unfold is_byte; lia.
  - reflexivity.
  - reflexivity.
Defined.
